(** * dowhy.gcm: the package initializer and the engine it re-exports

    The only source file of the package is [src/dowhy/gcm/__init__.py]: a
    docstring followed by nine relative [from ... import ...] statements.

    Part 1 embeds that file as a value of a small statement syntax (the
    fields follow Python's [ast] module) and gives the import statement its
    meaning as a fallible update of the package namespace.

    Parts 2 and 3 model, from the specification, the graph and the sampler
    the initializer re-exports; their code is not part of [src/]. *)

From stdpp Require Import gmap strings list fin_maps relations.

Open Scope string_scope.

Set Warnings "-clear-no-such-hyp".

(** ** Part 1. The initializer *)

Module Init.

(** *** Syntax *)

(** [ast.alias]: one entry of an import list, [name] or [name as asname]. *)
Record alias := Alias { name : string; asname : option string }.

(** The module-level statement kinds.  Only what decides which names a
    module binds is kept: the bodies of definitions and the right-hand sides
    of assignments are left out, and every other statement kind (control
    flow, calls, ...) is [Other]. *)
Inductive stmt :=
| Expr_str (s : string)
| ImportFrom (module : option string) (names : list alias) (level : nat)
| Import (names : list alias)
| FunctionDef (fname : string)
| ClassDef (cname : string)
| Assign (target : string)
| Other.

(** [from .m import a, b] without renaming. *)
Definition plain (x : string) : alias := Alias x None.
Definition from_ (m : string) (xs : list string) : stmt :=
  ImportFrom (Some m) (plain <$> xs) 1.
Definition from_package (xs : list string) : stmt :=
  ImportFrom None (plain <$> xs) 1.

(** *** src/dowhy/gcm/__init__.py, statement by statement *)

Definition docstring : string :=
"The gcm sub-package provides features built on top of graphical causal model (GCM) based inference. The status of
this addition and its API is considered experimental, meaning there might be breaking changes to its API in the
future.
".

Definition gcm_init : list stmt :=
  [ Expr_str docstring;
    from_package ["ml"; "util"];
    from_ "cms"
      [ "FunctionalCausalModel";
        "InvertibleStructuralCausalModel";
        "ProbabilisticCausalModel";
        "StructuralCausalModel" ];
    from_ "distribution_change"
      [ "distribution_change"; "distribution_change_of_graphs" ];
    from_ "fcms"
      [ "AdditiveNoiseModel";
        "ClassificationModel";
        "ClassifierFCM";
        "PostNonlinearModel";
        "PredictionModel" ];
    from_ "fitting_sampling" [ "draw_samples"; "fit" ];
    from_ "graph"
      [ "ConditionalStochasticModel";
        "DirectedGraph";
        "FunctionalCausalModel";
        "StochasticModel";
        "is_root_node" ];
    from_ "independence_test" [ "approx_kernel_based"; "kernel_based" ];
    from_ "stochastic_models"
      [ "BayesianGaussianMixtureDistribution";
        "EmpiricalDistribution";
        "ScipyDistribution" ];
    from_ "whatif" [ "counterfactual_samples"; "interventional_samples" ] ].

(** The dotted name of the package, from the file's path. *)
Definition package : string := "dowhy.gcm".
Definition qualname (m : string) : string := package +:+ "." +:+ m.

(** *** Static reading of the file *)

Definition is_definition (s : stmt) : bool :=
  match s with FunctionDef _ | ClassDef _ => true | _ => false end.

Definition is_relative_import (s : stmt) : bool :=
  match s with ImportFrom _ _ 1 => true | _ => false end.

(** The string a module starts with, if it starts with one
    ([ast.get_docstring]). *)
Definition get_docstring (body : list stmt) : option string :=
  match body with Expr_str s :: _ => Some s | _ => None end.

Definition bound_name (a : alias) : string :=
  match asname a with Some y => y | None => name a end.

(** The submodules named by [from .<module> import ...] statements, in file
    order. *)
Fixpoint from_modules (body : list stmt) : list string :=
  match body with
  | [] => []
  | ImportFrom (Some m) _ _ :: rest => m :: from_modules rest
  | _ :: rest => from_modules rest
  end.

(** Every [(module, imported name, bound name)] of the file's
    [from .<module> import ...] statements, in file order. *)
Fixpoint from_imports (body : list stmt) : list (string * string * string) :=
  match body with
  | [] => []
  | ImportFrom (Some m) xs _ :: rest =>
      ((fun a => (m, name a, bound_name a)) <$> xs) ++ from_imports rest
  | _ :: rest => from_imports rest
  end.

(** The names listed by [from . import ...] statements, in file order. *)
Fixpoint package_imports (body : list stmt) : list string :=
  match body with
  | [] => []
  | ImportFrom None xs _ :: rest => (name <$> xs) ++ package_imports rest
  | _ :: rest => package_imports rest
  end.

(** The eight submodules the specification lists, in its order. *)
Definition spec_modules : list string :=
  [ "cms"; "fcms"; "graph"; "independence_test"; "distribution_change";
    "fitting_sampling"; "whatif"; "stochastic_models" ].

(** *** Evaluation *)

(** What a name of the package namespace can denote.  The submodules are not
    in [src/], so what they define is kept symbolic: [VAttr m x] is whatever
    object the attribute [x] of submodule [m] is. *)
Inductive value :=
| VStr (s : string)
| VNone
| VSubmodule (m : string)
| VAttr (m x : string)
| VLocal (x : string).

Global Instance value_eq_dec : EqDecision value.
Proof. solve_decision. Defined.

Global Instance alias_eq_dec : EqDecision alias.
Proof. solve_decision. Defined.

Global Instance stmt_eq_dec : EqDecision stmt.
Proof. solve_decision. Defined.

(** The part of the world the file depends on and [src/] does not hold:
    which submodules of the package exist, and which attributes each has
    once it is loaded. *)
Record World := {
  is_submodule : string -> bool;
  has_attr : string -> string -> bool
}.

(** The package namespace, and the submodules of the package present in
    [sys.modules]. *)
Record State := {
  ns : gmap string value;
  loaded : gset string
}.

Inductive exn :=
| ModuleNotFoundError (m : string)
| ImportError (m x : string).

Inductive outcome :=
| Done (st : State)
| Raised (e : exn)
| Unsupported.

Definition bind (x : string) (v : value) (st : State) : State :=
  {| ns := <[x := v]> (ns st); loaded := loaded st |}.

(** Loading a submodule for the first time records it in [sys.modules] and
    binds it, under its own name, in the namespace of its parent package.
    The body of the submodule runs at that point; it is not in [src/], and
    it is taken to run to its end and to leave the namespace of the package
    alone: the sibling submodules it may load, like the names the import
    system gives every module ([__name__], [__path__], ...), are outside
    the model, which follows the names the file's own statements bind. *)
Definition load (m : string) (st : State) : State :=
  {| ns := <[m := VSubmodule m]> (ns st); loaded := {[m]} ∪ loaded st |}.

(** [import_module]: a module already in [sys.modules] is returned as it is,
    without touching the parent's namespace. *)
Definition import_submodule (w : World) (m : string) (st : State) : outcome :=
  if decide (m ∈ loaded st) then Done st
  else if is_submodule w m then Done (load m st)
  else Raised (ModuleNotFoundError (qualname m)).

Definition supported_alias (a : alias) : bool :=
  bool_decide (name a ≠ "*").

(** One name of [from . import x]: an attribute of the package if it has
    one of that name, else the submodule of that name.  A submodule that is
    not found is not an error of its own here: the name then cannot be
    imported from the package, an [ImportError]. *)
Definition import_from_package (w : World) (a : alias) (st : State) : outcome :=
  if negb (supported_alias a) then Unsupported else
  match ns st !! name a with
  | Some v => Done (bind (bound_name a) v st)
  | None =>
      match import_submodule w (name a) st with
      | Done st' => Done (bind (bound_name a) (VSubmodule (name a)) st')
      | Raised _ => Raised (ImportError package (name a))
      | Unsupported => Unsupported
      end
  end.

(** One name of [from .m import x], the submodule [m] being loaded. *)
Definition import_from_submodule (w : World) (m : string) (a : alias)
    (st : State) : outcome :=
  if negb (supported_alias a) then Unsupported
  else if has_attr w m (name a) then Done (bind (bound_name a) (VAttr m (name a)) st)
  else Raised (ImportError (qualname m) (name a)).

Fixpoint exec_aliases (f : alias -> State -> outcome) (xs : list alias)
    (st : State) : outcome :=
  match xs with
  | [] => Done st
  | a :: rest =>
      match f a st with
      | Done st' => exec_aliases f rest st'
      | o => o
      end
  end.

(** A dotted module path ([from .a.b import x]) loads a chain of modules;
    the file has none and the model does not follow them. *)
Fixpoint has_dot (s : string) : bool :=
  match s with
  | EmptyString => false
  | String c rest => if Ascii.eqb c (Ascii.ascii_of_nat 46) then true else has_dot rest
  end.

Definition exec_stmt (w : World) (s : stmt) (st : State) : outcome :=
  match s with
  | Expr_str _ => Done st
  | ImportFrom None xs 1 => exec_aliases (import_from_package w) xs st
  | ImportFrom (Some m) xs 1 =>
      if has_dot m then Unsupported else
      match import_submodule w m st with
      | Done st' => exec_aliases (import_from_submodule w m) xs st'
      | o => o
      end
  | ImportFrom _ _ _ => Unsupported
  | Import _ => Unsupported
  | FunctionDef x | ClassDef x | Assign x => Done (bind x (VLocal x) st)
  | Other => Unsupported
  end.

Fixpoint exec (w : World) (body : list stmt) (st : State) : outcome :=
  match body with
  | [] => Done st
  | s :: rest =>
      match exec_stmt w s st with
      | Done st' => exec w rest st'
      | o => o
      end
  end.

(** A module starts with [__doc__] bound to its docstring, or to [None]. *)
Definition initial (body : list stmt) : State :=
  {| ns := {[ "__doc__" := from_option VStr VNone (get_docstring body) ]};
     loaded := ∅ |}.

Definition exec_module (w : World) (body : list stmt) : outcome :=
  exec w body (initial body).

(** The world in which every submodule exists and has every attribute. *)
Definition full_world : World :=
  {| is_submodule := fun _ => true; has_attr := fun _ _ => true |}.

(** What the file asks of the world, statement by statement. *)
Definition provided_stmt (w : World) (s : stmt) : bool :=
  match s with
  | ImportFrom None xs _ => forallb (fun a => is_submodule w (name a)) xs
  | ImportFrom (Some m) xs _ =>
      is_submodule w m && forallb (fun a => has_attr w m (name a)) xs
  | _ => true
  end.

(** The statements [exec_stmt] gives a meaning to. *)
Definition supported_stmt (s : stmt) : bool :=
  match s with
  | Expr_str _ | FunctionDef _ | ClassDef _ | Assign _ => true
  | ImportFrom None xs 1 => forallb supported_alias xs
  | ImportFrom (Some m) xs 1 => negb (has_dot m) && forallb supported_alias xs
  | _ => false
  end.

(** A value that reached the name [x] through an import statement of
    [body]: a submodule the file imports, bound under its own name, or the
    attribute [y] of submodule [m] that some [from .m import y [as x]]
    lists. *)
Definition obtained_by_import (body : list stmt) (x : string) (v : value) : Prop :=
  match v with
  | VSubmodule m => x = m ∧ m ∈ (package_imports body ++ from_modules body)%list
  | VAttr m y => (m, y, x) ∈ from_imports body
  | _ => False
  end.

Global Instance obtained_by_import_dec body x v :
  Decision (obtained_by_import body x v).
Proof. destruct v; simpl; apply _. Defined.

Definition state_of (o : outcome) : State :=
  match o with Done st => st | _ => {| ns := ∅; loaded := ∅ |} end.

(** The namespace the initializer ends in when nothing raises. *)
Definition gcm_namespace : State :=
  Eval vm_compute in state_of (exec_module full_world gcm_init).


End Init.

(** *** Further readings of the initializer *)

Module InitReading.
Import Init.

(** What the import statements of [body] ask of the world: the submodules
    they name, and the attributes they list. *)
Definition world_provides (w : World) (body : list stmt) : Prop :=
  Forall (fun m => is_submodule w m = true)
         (package_imports body ++ from_modules body)%list ∧
  Forall (fun t => has_attr w t.1.1 t.1.2 = true) (from_imports body).

(** The names a statement may bind: those of its import list and, for
    [from .m import ...], the name of the submodule it loads. *)
Definition touched (s : stmt) : list string :=
  match s with
  | ImportFrom None xs _ => (name <$> xs) ++ (bound_name <$> xs)
  | ImportFrom (Some m) xs _ => m :: (bound_name <$> xs)
  | FunctionDef x | ClassDef x | Assign x => [x]
  | _ => []
  end%list.

(** The file with its import statements in another order. *)
Definition reordered (body : list stmt) : Prop :=
  exists imports, body = Expr_str docstring :: imports ∧ imports ≡ₚ tail gcm_init.

(** The two statements that import [FunctionalCausalModel]. *)
Definition cms_statement : stmt :=
  from_ "cms"
    [ "FunctionalCausalModel"; "InvertibleStructuralCausalModel";
      "ProbabilisticCausalModel"; "StructuralCausalModel" ].

Definition graph_statement : stmt :=
  from_ "graph"
    [ "ConditionalStochasticModel"; "DirectedGraph"; "FunctionalCausalModel";
      "StochasticModel"; "is_root_node" ].

(** The file with the [.cms] and [.graph] statements exchanged. *)
Definition gcm_init_graph_first : list stmt :=
  [ Expr_str docstring;
    from_package ["ml"; "util"];
    graph_statement;
    from_ "distribution_change"
      [ "distribution_change"; "distribution_change_of_graphs" ];
    from_ "fcms"
      [ "AdditiveNoiseModel"; "ClassificationModel"; "ClassifierFCM";
        "PostNonlinearModel"; "PredictionModel" ];
    from_ "fitting_sampling" [ "draw_samples"; "fit" ];
    cms_statement;
    from_ "independence_test" [ "approx_kernel_based"; "kernel_based" ];
    from_ "stochastic_models"
      [ "BayesianGaussianMixtureDistribution"; "EmpiricalDistribution";
        "ScipyDistribution" ];
    from_ "whatif" [ "counterfactual_samples"; "interventional_samples" ] ].

(** A world without the submodule [fcms], and one in which [graph] has no
    attribute [StochasticModel]. *)
Definition world_without_fcms : World :=
  {| is_submodule := fun m => bool_decide (m ≠ "fcms");
     has_attr := fun _ _ => true |}.

Definition world_without_StochasticModel : World :=
  {| is_submodule := fun _ => true;
     has_attr := fun m x => bool_decide ((m, x) ≠ ("graph", "StochasticModel")) |}.

(** A binding the file makes in some order of its statements: the one of
    [gcm_namespace], or [FunctionalCausalModel] as [.cms] has it. *)
Definition settled (x : string) (v : value) : Prop :=
  ns gcm_namespace !! x = Some v ∨
  (x = "FunctionalCausalModel" ∧ v = VAttr "cms" "FunctionalCausalModel").

Global Instance settled_dec x v : Decision (settled x v).
Proof. unfold settled. apply _. Defined.

(** A state made of such bindings only, in which every loaded submodule is
    still bound to some value. *)
Definition consistent (st : State) : Prop :=
  map_Forall settled (ns st) ∧ forall m, m ∈ loaded st -> is_Some (ns st !! m).

(** A statement all of whose bindings are such bindings; the submodule a
    [from .m import ...] loads may instead be rebound by the import list. *)
Definition fits (s : stmt) : Prop :=
  match s with
  | ImportFrom (Some m) xs 1 =>
      (settled m (VSubmodule m) ∨ m ∈ bound_name <$> xs) ∧
      Forall (fun a => settled (bound_name a) (VAttr m (name a))) xs
  | ImportFrom None xs 1 =>
      Forall (fun a => bound_name a = name a ∧
                       settled (name a) (VSubmodule (name a))) xs
  | Expr_str _ => True
  | _ => False
  end.

Global Instance fits_dec s : Decision (fits s).
Proof. destruct s as [d|[m|] xs [|[|l]]|xs|x|x|x|]; simpl; apply _. Defined.

(** The namespace that file ends in when nothing raises. *)
Definition namespace_graph_first : State :=
  Eval vm_compute in state_of (exec_module full_world gcm_init_graph_first).



End InitReading.


(** ** Part 2. The directed graph the initializer re-exports

    [DirectedGraph] comes from [.graph], whose code is not in [src/]; the
    definitions of this part follow sections 3, 4.1 and 7 of the
    specification. *)

(** Modelled from the spec: the error kinds of section 7, raised by code of
    [.graph], [.fitting_sampling] and [.whatif] that is missing from
    [src/]. *)
Inductive Error :=
| CycleError
| FittingError
| NonInvertibleMechanismError
| UnfittedModelError.

(** Modelled from the spec: the outcome of an operation of the missing
    modules, which "either fully succeeds or raises a typed error". *)
Inductive Result (A : Type) :=
| Ok (a : A)
| Err (e : Error).
Arguments Ok {A} a.
Arguments Err {A} e.

Module Graph.

(** Modelled from the spec: the [DirectedGraph] of [.graph], missing from
    [src/]: a set of nodes and a set of directed edges (parent, child). *)
Record DirectedGraph := {
  nodes : gset string;
  edges : gset (string * string)
}.

Definition empty_graph : DirectedGraph := {| nodes := ∅; edges := ∅ |}.

(** Modelled from the spec: [add_node(id)] of the missing [.graph]. *)
Definition add_node (id : string) (g : DirectedGraph) : DirectedGraph :=
  {| nodes := {[id]} ∪ nodes g; edges := edges g |}.

(** Modelled from the spec: [parents_of(node)], [children_of(node)] and
    [is_root(node)] ("true iff no parents") of the missing [.graph]. *)
Definition parents_of (g : DirectedGraph) (n : string) : gset string :=
  set_map fst (filter (fun e => e.2 = n) (edges g)).

Definition children_of (g : DirectedGraph) (n : string) : gset string :=
  set_map snd (filter (fun e => e.1 = n) (edges g)).

Definition is_root (g : DirectedGraph) (n : string) : bool :=
  bool_decide (parents_of g n = ∅).

(** The children of the nodes of [X]. *)
Definition successors (g : DirectedGraph) (X : gset string) : gset string :=
  set_map snd (filter (fun e => e.1 ∈ X) (edges g)).

(** [k] rounds of adding the children of what has been reached. *)
Fixpoint reach (g : DirectedGraph) (k : nat) (X : gset string) : gset string :=
  match k with
  | 0 => X
  | S k' => reach g k' (X ∪ successors g X)
  end.

(** A node and all the nodes a directed path leads to from it.  Each round
    that changes the set adds a child of some edge, so as many rounds as
    there are edges are enough. *)
Definition descendants (g : DirectedGraph) (n : string) : gset string :=
  reach g (size (edges g)) {[n]}.

(** The graph with the edge put in, its two ends being nodes of it. *)
Definition with_edge (g : DirectedGraph) (parent child : string) : DirectedGraph :=
  {| nodes := {[parent; child]} ∪ nodes g;
     edges := {[(parent, child)]} ∪ edges g |}.

(** Modelled from the spec: [add_edge(parent, child)] of the missing
    [.graph], which "fails with CycleError if the edge would create a
    cycle".  The specification does not say how the cycle is found; here the
    edge closes a cycle when a path already leads from [child] to
    [parent]. *)
Definition add_edge (g : DirectedGraph) (parent child : string)
    : Result DirectedGraph :=
  if bool_decide (parent ∈ descendants g child) then Err CycleError
  else Ok (with_edge g parent child).

(** What the claims say about graphs, independently of [add_edge]: the edge
    relation, and acyclicity as the absence of a non-empty path from a node
    to itself. *)
Definition edge (g : DirectedGraph) : relation string :=
  fun a b => (a, b) ∈ edges g.

Definition acyclic (g : DirectedGraph) : Prop :=
  forall x, ¬ tc (edge g) x x.

(** The chain A -> B -> C of the specification's end-to-end scenario. *)
Definition chain_graph : DirectedGraph :=
  with_edge (with_edge (add_node "A" empty_graph) "A" "B") "B" "C".

End Graph.

(** ** Part 3. The sampler the initializer re-exports

    [draw_samples] comes from [.fitting_sampling], [interventional_samples]
    and [counterfactual_samples] from [.whatif]; neither file is in [src/].
    The definitions of this part follow sections 3 and 4.3 of the
    specification. *)

Module Scm.
Import Graph.

Section Sampler.

(** Node values and noise values, and the state of the random generator. *)
Context {V Gen : Type}.

(** The graph's [topological_order()], used through its contract. *)
Variable topological_order : DirectedGraph -> list string.

(** Modelled from the spec: the mechanism variants of section 3, whose
    classes ([.graph], [.fcms], [.stochastic_models]) are missing from
    [src/].  A root mechanism draws the node's value; a conditional
    mechanism is [f(parent_values, noise)] with a noise distribution and,
    optionally, its inverse in the noise argument,
    [invert(observed_value, observed_parent_values)]; a prediction mechanism
    has no noise. *)
Inductive Mechanism :=
| RootMechanism (draw : Gen -> V * Gen)
| ConditionalMechanism
    (f : gmap string V -> V -> V)
    (invert : option (V -> gmap string V -> V))
    (noise : Gen -> V * Gen)
| PredictionMechanism (predict : gmap string V -> V).

(** Modelled from the spec: the two sub-variants of the causal model, whose
    classes ([.cms]) are missing from [src/]. *)
Inductive ModelKind :=
| ProbabilisticCausalModel
| InvertibleStructuralCausalModel.

(** Modelled from the spec: the causal model of section 3, a graph with a
    mapping from nodes to mechanisms; a node without an entry is not
    fitted. *)
Record CausalModel := {
  kind : ModelKind;
  graph : DirectedGraph;
  mechanisms : gmap string Mechanism
}.

(** Modelled from the spec: the intervention of section 3, an argument of
    the missing [.whatif] functions, which maps some nodes to a fixed value
    or to a replacement mechanism. *)
Inductive Override :=
| FixValue (v : V)
| ReplaceMechanism (mech : Mechanism).

(** Computations that use the random generator and may raise. *)
Definition M (A : Type) : Type := Gen -> Result (A * Gen).

Definition ret {A} (a : A) : M A := fun g => Ok (a, g).
Definition raise {A} (e : Error) : M A := fun _ => Err e.
Definition bind {A B} (c : M A) (k : A -> M B) : M B :=
  fun g => match c g with
           | Ok (a, g') => k a g'
           | Err e => Err e
           end.
Definition sample (d : Gen -> V * Gen) : M V := fun g => Ok (d g).

Local Notation "'let*' x := c 'in' k" := (bind c (fun x => k))
  (at level 10, x name, c at level 200, k at level 200).

(** "Gather already-computed parent values": the values [row] holds for
    the nodes of [ps]. *)
Definition parent_values (ps : gset string) (row : string -> option V)
    : gmap string V :=
  list_to_map (omap (fun p => pair p <$> row p) (elements ps)).

(** The noise of a node: drawn afresh when none was recovered for it, else
    the recovered one. *)
Definition noise_for (recovered : option V) (d : Gen -> V * Gen) : M V :=
  match recovered with
  | None => sample d
  | Some u => ret u
  end.

(** Modelled from the spec: how a mechanism of section 3 produces a value
    in the forward simulation (code missing from [src/]): a root mechanism
    draws it, a conditional one computes [f(parents, noise)], a prediction
    mechanism predicts it from the parents.  A root node has a root
    mechanism (invariant of section 3), so the case is read off the
    mechanism. *)
Definition run_mechanism (recovered : option V) (pa : gmap string V)
    (mech : Mechanism) : M V :=
  match mech with
  | RootMechanism draw => noise_for recovered draw
  | ConditionalMechanism f _ noise =>
      let* u := noise_for recovered noise in ret (f pa u)
  | PredictionMechanism predict => ret (predict pa)
  end.

(** Modelled from the spec: step 2 of the forward simulation of section
    4.3 (code missing from [src/]), for one node: the override if the
    intervention has one, else the fitted mechanism, run on the values of
    the parents and on the node's noise. *)
Definition simulate_node (m : CausalModel) (iv : gmap string Override)
    (row : gmap string V) (n : string) (recovered : option V)
    : M (gmap string V) :=
  let pa := parent_values (parents_of (graph m) n) (fun p => row !! p) in
  let* v := match iv !! n with
       | Some (FixValue v) => ret v
       | Some (ReplaceMechanism mech) => run_mechanism recovered pa mech
       | None =>
           match mechanisms m !! n with
           | Some mech => run_mechanism recovered pa mech
           | None => raise UnfittedModelError
           end
       end in
  ret (<[n := v]> row).

(** Modelled from the spec: the forward simulation of section 4.3 (code
    missing from [src/]) over the nodes in the order given, each with the
    noise recovered for it, if any. *)
Fixpoint simulate (m : CausalModel) (iv : gmap string Override)
    (plan : list (string * option V)) (row : gmap string V)
    : M (gmap string V) :=
  match plan with
  | [] => ret row
  | (n, recovered) :: rest =>
      let* row' := simulate_node m iv row n recovered in simulate m iv rest row'
  end.

Fixpoint repeatM {A} (n : nat) (c : M A) : M (list A) :=
  match n with
  | 0 => ret []
  | S n' => let* a := c in let* rest := repeatM n' c in ret (a :: rest)
  end.

(** One row with fresh noise at every node. *)
Definition fresh_row (m : CausalModel) (iv : gmap string Override)
    : M (gmap string V) :=
  simulate m iv ((fun n => (n, None)) <$> topological_order (graph m)) ∅.

(** Modelled from the spec: [draw_samples] of the missing
    [.fitting_sampling]: fresh noise for every node of every sample, no
    overrides. *)
Definition draw_samples (m : CausalModel) (n_samples : nat)
    : M (list (gmap string V)) :=
  repeatM n_samples (fresh_row m ∅).

(** Modelled from the spec: [interventional_samples] of the missing
    [.whatif]: as [draw_samples], with the overrides applied in every
    sample. *)
Definition interventional_samples (m : CausalModel)
    (iv : gmap string Override) (n_samples : nat)
    : M (list (gmap string V)) :=
  repeatM n_samples (fresh_row m iv).

(** Modelled from the spec: the abduction pass of section 4.3 (code
    missing from [src/]) at one node of a fully observed row.  A root's draw
    is its value, so the observed value is what is replayed there;
    elsewhere the noise is [invert(observed_value, observed_parent_values)],
    and a mechanism without inverse raises. *)
Definition abduct_node (m : CausalModel) (factual : string -> V) (n : string)
    : Result V :=
  match mechanisms m !! n with
  | None => Err UnfittedModelError
  | Some (RootMechanism _) => Ok (factual n)
  | Some (ConditionalMechanism _ (Some invert) _) =>
      Ok (invert (factual n)
            (parent_values (parents_of (graph m) n) (fun p => Some (factual p))))
  | Some (ConditionalMechanism _ None _) => Err NonInvertibleMechanismError
  | Some (PredictionMechanism _) => Err NonInvertibleMechanismError
  end.

Fixpoint abduction (m : CausalModel) (factual : string -> V)
    (order : list string) : Result (list (string * option V)) :=
  match order with
  | [] => Ok []
  | n :: rest =>
      match abduct_node m factual n with
      | Err e => Err e
      | Ok u =>
          match abduction m factual rest with
          | Err e => Err e
          | Ok plan => Ok ((n, Some u) :: plan)
          end
      end
  end.

(** Modelled from the spec: [counterfactual_samples] of the missing
    [.whatif], for one fully observed row (a value for every node):
    abduction, then the forward simulation with the overrides and the
    recovered noise. *)
Definition counterfactual_samples (m : CausalModel)
    (iv : gmap string Override) (factual : string -> V)
    : M (gmap string V) :=
  match kind m with
  | ProbabilisticCausalModel => raise NonInvertibleMechanismError
  | InvertibleStructuralCausalModel =>
      match abduction m factual (topological_order (graph m)) with
      | Err e => raise e
      | Ok plan => simulate m iv plan ∅
      end
  end.

(** What the claims assume of their inputs. *)

(** The contract of [topological_order()]: every node of the graph is
    listed, after all its parents. *)
Fixpoint parents_first (g : DirectedGraph) (seen : gset string)
    (order : list string) : Prop :=
  match order with
  | [] => True
  | n :: rest => parents_of g n ⊆ seen ∧ parents_first g ({[n]} ∪ seen) rest
  end.

Definition topological (g : DirectedGraph) (order : list string) : Prop :=
  parents_first g ∅ order ∧ forall n, n ∈ order ↔ n ∈ nodes g.

(** "All conditional mechanisms must be invertible in noise". *)
Definition invertible (mech : Mechanism) : Prop :=
  match mech with
  | RootMechanism _ => True
  | ConditionalMechanism f (Some invert) _ =>
      forall pa v, f pa (invert v pa) = v
  | ConditionalMechanism _ None _ => False
  | PredictionMechanism _ => False
  end.

(** A fitted [InvertibleStructuralCausalModel]: every node of the graph has
    a mechanism, and every mechanism is invertible. *)
Definition fitted_invertible (m : CausalModel) : Prop :=
  kind m = InvertibleStructuralCausalModel ∧
  (forall n, n ∈ nodes (graph m) -> is_Some (mechanisms m !! n)) ∧
  map_Forall (fun _ mech => invertible mech) (mechanisms m).

(** A computation that neither reads nor advances the generator. *)
Definition uses_no_randomness {A} (c : M A) : Prop :=
  exists r : Result A,
    forall g, c g = match r with Ok a => Ok (a, g) | Err e => Err e end.

End Sampler.

Arguments Mechanism : clear implicits.
Arguments CausalModel : clear implicits.
Arguments Override : clear implicits.
Arguments M : clear implicits.

(** The chain of the specification's end-to-end scenario, over the
    integers: A is drawn, B = A + noise, C = B*2 + noise.  The generator is
    a counter and a draw returns its reading. *)
Definition counter_draw (g : nat) : Z * nat := (Z.of_nat g, S g).

Definition chain_mechanisms : gmap string (Mechanism Z nat) :=
  <["A" := RootMechanism counter_draw]>
  (<["B" := ConditionalMechanism
              (fun pa u => default 0 (pa !! "A") + u)
              (Some (fun v pa => v - default 0 (pa !! "A")))
              counter_draw]>
  (<["C" := ConditionalMechanism
              (fun pa u => default 0 (pa !! "B") * 2 + u)
              (Some (fun v pa => v - default 0 (pa !! "B") * 2))
              counter_draw]> ∅))%Z.

Definition chain_model : CausalModel Z nat :=
  {| kind := InvertibleStructuralCausalModel;
     graph := chain_graph;
     mechanisms := chain_mechanisms |}.

Definition chain_order (g : DirectedGraph) : list string := ["A"; "B"; "C"].

Definition chain_row (n : string) : Z :=
  if decide (n = "A") then 1
  else if decide (n = "B") then 3
  else if decide (n = "C") then 10
  else 0.

End Scm.

(** ** Facts about the initializer *)

(** Closed decidable facts are settled by evaluation. *)
Ltac by_evaluation := apply (bool_decide_unpack _); vm_compute; exact I.

Module InitFacts.
Import Init.

(** Success does not depend on which world it happens in: the values bound
    are symbolic, the world only decides whether an import raises. *)
Lemma import_submodule_full w m st st' :
  import_submodule w m st = Done st' ->
  import_submodule full_world m st = Done st'.
Proof.
  unfold import_submodule; simpl.
  case_decide; [done|]. by destruct (is_submodule w m).
Qed.

Lemma exec_aliases_mono (f g : alias -> State -> outcome) :
  (forall a st st', f a st = Done st' -> g a st = Done st') ->
  forall xs st st',
    exec_aliases f xs st = Done st' -> exec_aliases g xs st = Done st'.
Proof.
  intros Hfg xs. induction xs as [|a xs IH]; intros st st' H; simpl in *; [done|].
  destruct (f a st) as [st1| |] eqn:E; try discriminate.
  rewrite (Hfg _ _ _ E). by apply IH.
Qed.

Lemma import_from_package_full w a st st' :
  import_from_package w a st = Done st' ->
  import_from_package full_world a st = Done st'.
Proof.
  unfold import_from_package.
  destruct (negb (supported_alias a)); [done|].
  destruct (ns st !! name a); [done|].
  destruct (import_submodule w (name a) st) as [st1| |] eqn:E; try discriminate.
  by rewrite (import_submodule_full _ _ _ _ E).
Qed.

Lemma import_from_submodule_full w m a st st' :
  import_from_submodule w m a st = Done st' ->
  import_from_submodule full_world m a st = Done st'.
Proof.
  unfold import_from_submodule; simpl.
  destruct (negb (supported_alias a)); [done|].
  by destruct (has_attr w m (name a)).
Qed.

Lemma exec_stmt_full w s st st' :
  exec_stmt w s st = Done st' -> exec_stmt full_world s st = Done st'.
Proof.
  destruct s as [d|[m|] xs [|[|l]]|xs|x|x|x|]; simpl; try done.
  - destruct (has_dot m); [done|].
    destruct (import_submodule w m st) as [st1| |] eqn:E; try discriminate.
    rewrite (import_submodule_full _ _ _ _ E).
    apply exec_aliases_mono, import_from_submodule_full.
  - apply exec_aliases_mono, import_from_package_full.
Qed.

Lemma exec_full w body st st' :
  exec w body st = Done st' -> exec full_world body st = Done st'.
Proof.
  revert st. induction body as [|s body IH]; intros st H; simpl in *; [done|].
  destruct (exec_stmt w s st) as [st1| |] eqn:E; try discriminate.
  rewrite (exec_stmt_full _ _ _ _ E). by apply IH.
Qed.

(** Whatever the world, an evaluation of the initializer that does not
    raise ends in one and the same namespace. *)
Lemma exec_gcm_init w st :
  exec_module w gcm_init = Done st -> st = gcm_namespace.
Proof.
  intros H. apply exec_full in H.
  assert (Hf : exec_module full_world gcm_init = Done gcm_namespace)
    by reflexivity.
  unfold exec_module in *. congruence.
Qed.

(** Evaluation goes through as soon as the world holds what the statements
    name. *)
Lemma import_submodule_provided w m st :
  is_submodule w m = true -> exists st', import_submodule w m st = Done st'.
Proof.
  intros Hm. unfold import_submodule. case_decide; [by eexists|].
  rewrite Hm. by eexists.
Qed.

Lemma exec_aliases_package_provided w xs st :
  forallb supported_alias xs = true ->
  forallb (fun a => is_submodule w (name a)) xs = true ->
  exists st', exec_aliases (import_from_package w) xs st = Done st'.
Proof.
  revert st. induction xs as [|a xs IH]; intros st Hs Hp; simpl in *; [by eexists|].
  apply andb_prop in Hs as [Ha Hs]. apply andb_prop in Hp as [Hm Hp].
  unfold import_from_package at 1. rewrite Ha. simpl.
  destruct (ns st !! name a); [by apply IH|].
  destruct (import_submodule_provided w (name a) st Hm) as [st1 ->].
  by apply IH.
Qed.

Lemma exec_aliases_submodule_provided w m xs st :
  forallb supported_alias xs = true ->
  forallb (fun a => has_attr w m (name a)) xs = true ->
  exists st', exec_aliases (import_from_submodule w m) xs st = Done st'.
Proof.
  revert st. induction xs as [|a xs IH]; intros st Hs Hp; simpl in *; [by eexists|].
  apply andb_prop in Hs as [Ha Hs]. apply andb_prop in Hp as [Hm Hp].
  unfold import_from_submodule at 1. rewrite Ha, Hm. simpl. by apply IH.
Qed.

Lemma exec_stmt_provided w s st :
  supported_stmt s = true -> provided_stmt w s = true ->
  exists st', exec_stmt w s st = Done st'.
Proof.
  destruct s as [d|[m|] xs [|[|l]]|xs|x|x|x|]; simpl; try done; try by eexists.
  - intros [Hd Hs]%andb_prop [Hm Hp]%andb_prop.
    apply negb_true_iff in Hd. rewrite Hd.
    destruct (import_submodule_provided w m st Hm) as [st1 ->].
    by apply exec_aliases_submodule_provided.
  - intros. by apply exec_aliases_package_provided.
Qed.

Lemma exec_provided w body st :
  forallb supported_stmt body = true ->
  forallb (provided_stmt w) body = true ->
  exists st', exec w body st = Done st'.
Proof.
  revert st. induction body as [|s body IH]; intros st Hs Hp; simpl in *; [by eexists|].
  apply andb_prop in Hs as [Hs1 Hs]. apply andb_prop in Hp as [Hp1 Hp].
  destruct (exec_stmt_provided w s st Hs1 Hp1) as [st1 ->]. by apply IH.
Qed.

(** The package imports: in a world that has the ten submodules and the
    twenty-five attributes the file names, evaluation ends, and ends in
    [gcm_namespace]. *)
Lemma gcm_init_importable w :
  forallb (provided_stmt w) gcm_init = true ->
  exec_module w gcm_init = Done gcm_namespace.
Proof.
  intros Hp.
  destruct (exec_provided w gcm_init (initial gcm_init) eq_refl Hp) as [st H].
  unfold exec_module. rewrite H. f_equal. by apply (exec_gcm_init w).
Qed.

Lemma gcm_init_imports_full_world :
  exec_module full_world gcm_init = Done gcm_namespace.
Proof. by apply gcm_init_importable. Qed.

Lemma gcm_namespace_origins :
  map_Forall (fun x v =>
    (x = "__doc__" ∧ v = VStr docstring) ∨ obtained_by_import gcm_init x v)
    (ns gcm_namespace).
Proof. by_evaluation. Qed.

(** C1.  The initializer defines no function and no class, and has no
    statement other than its docstring and relative imports; whenever its
    evaluation ends, every name of the package namespace except [__doc__]
    (which holds the docstring) denotes either a submodule the file imports
    or an attribute that one of its [from .m import ...] statements took
    from submodule [m]. *)
Theorem init_only_imports (w : World) (st : State) :
  exec_module w gcm_init = Done st ->
  get_docstring gcm_init = Some docstring ∧
  Forall (fun s => is_relative_import s = true) (tail gcm_init) ∧
  Forall (fun s => is_definition s = false) gcm_init ∧
  (forall x v, ns st !! x = Some v ->
     (x = "__doc__" ∧ v = VStr docstring) ∨ obtained_by_import gcm_init x v).
Proof.
  intros ->%exec_gcm_init. split; [done|].
  split; [by_evaluation|]. split; [by_evaluation|].
  intros x v Hx. exact (gcm_namespace_origins x v Hx).
Qed.

Lemma init_only_imports_witness :
  exec_module full_world gcm_init = Done gcm_namespace ∧
  (forall x v, ns gcm_namespace !! x = Some v ->
     (x = "__doc__" ∧ v = VStr docstring) ∨ obtained_by_import gcm_init x v).
Proof.
  assert (H : exec_module full_world gcm_init = Done gcm_namespace)
    by reflexivity.
  split; [exact H|].
  exact (proj2 (proj2 (proj2 (init_only_imports full_world gcm_namespace H)))).
Defined.

(** C2.  The submodules named by the file's [from .<module> import ...]
    statements are, up to order, the eight the specification lists, each
    named once; and for each of the eight the file has such a statement,
    with a non-empty import list. *)
Theorem init_imports_from_eight_submodules :
  from_modules gcm_init ≡ₚ spec_modules ∧
  NoDup (from_modules gcm_init) ∧
  Forall (fun m => exists xs, xs ≠ [] ∧ from_ m xs ∈ gcm_init) spec_modules.
Proof.
  assert (Hl : NoDup (from_modules gcm_init)) by by_evaluation.
  split; [|split; [done|]].
  - apply NoDup_Permutation; [done|by_evaluation|].
    intros m. split; intros Hm.
    + assert (Hs : from_modules gcm_init ⊆ spec_modules) by by_evaluation.
      by apply Hs.
    + assert (Hs : spec_modules ⊆ from_modules gcm_init) by by_evaluation.
      by apply Hs.
  - unfold spec_modules, gcm_init.
    repeat (apply Forall_cons; split;
            [eexists; split; [|repeat first [apply list_elem_of_here | apply list_elem_of_further]]; done|]).
    apply Forall_nil_2.
Qed.

(** C3.  Whenever evaluation of the initializer ends, [fit] and
    [draw_samples] denote the attributes of those names of
    [.fitting_sampling], and [interventional_samples] and
    [counterfactual_samples] those of [.whatif]; the file imports them by
    the two statements shown. *)
Theorem fit_and_sampling_exports (w : World) (st : State) :
  exec_module w gcm_init = Done st ->
  from_ "fitting_sampling" ["draw_samples"; "fit"] ∈ gcm_init ∧
  from_ "whatif" ["counterfactual_samples"; "interventional_samples"] ∈ gcm_init ∧
  ns st !! "fit" = Some (VAttr "fitting_sampling" "fit") ∧
  ns st !! "draw_samples" = Some (VAttr "fitting_sampling" "draw_samples") ∧
  ns st !! "interventional_samples" = Some (VAttr "whatif" "interventional_samples") ∧
  ns st !! "counterfactual_samples" = Some (VAttr "whatif" "counterfactual_samples").
Proof.
  intros ->%exec_gcm_init.
  split; [by_evaluation|]. split; [by_evaluation|].
  repeat split; vm_compute; reflexivity.
Qed.

Lemma fit_and_sampling_exports_witness :
  exec_module full_world gcm_init = Done gcm_namespace ∧
  ns gcm_namespace !! "fit" = Some (VAttr "fitting_sampling" "fit").
Proof.
  assert (H : exec_module full_world gcm_init = Done gcm_namespace)
    by reflexivity.
  split; [exact H|].
  exact (proj1 (proj2 (proj2 (fit_and_sampling_exports full_world gcm_namespace H)))).
Defined.

(** C4.  Whenever evaluation of the initializer ends,
    [ProbabilisticCausalModel], [StructuralCausalModel] and
    [InvertibleStructuralCausalModel] are names of the package and denote
    the attributes of those names of [.cms]; one statement of the file
    imports the three. *)
Theorem causal_model_classes_from_cms (w : World) (st : State) :
  exec_module w gcm_init = Done st ->
  (exists xs, from_ "cms" xs ∈ gcm_init ∧
     "ProbabilisticCausalModel" ∈ xs ∧ "StructuralCausalModel" ∈ xs ∧
     "InvertibleStructuralCausalModel" ∈ xs) ∧
  ns st !! "ProbabilisticCausalModel" = Some (VAttr "cms" "ProbabilisticCausalModel") ∧
  ns st !! "StructuralCausalModel" = Some (VAttr "cms" "StructuralCausalModel") ∧
  ns st !! "InvertibleStructuralCausalModel"
    = Some (VAttr "cms" "InvertibleStructuralCausalModel").
Proof.
  intros ->%exec_gcm_init. split.
  - eexists. split; [apply list_elem_of_further, list_elem_of_further, list_elem_of_here|].
    repeat split; by_evaluation.
  - repeat split; vm_compute; reflexivity.
Qed.

Lemma causal_model_classes_from_cms_witness :
  exec_module full_world gcm_init = Done gcm_namespace ∧
  ns gcm_namespace !! "InvertibleStructuralCausalModel"
    = Some (VAttr "cms" "InvertibleStructuralCausalModel").
Proof.
  assert (H : exec_module full_world gcm_init = Done gcm_namespace)
    by reflexivity.
  split; [exact H|].
  exact (proj2 (proj2 (proj2 (causal_model_classes_from_cms full_world gcm_namespace H)))).
Defined.



(** The submodule [dowhy.gcm.cms] itself stays a name of the package: the
    import system binds it there when it loads it. *)
Remark cms_submodule_bound w st :
  exec_module w gcm_init = Done st -> ns st !! "cms" = Some (VSubmodule "cms").
Proof. intros ->%exec_gcm_init. vm_compute. reflexivity. Qed.

(** [distribution_change] is both a submodule and a name its import list
    binds: the name ends up denoting the attribute, not the submodule. *)
Remark distribution_change_is_the_attribute w st :
  exec_module w gcm_init = Done st ->
  ns st !! "distribution_change"
    = Some (VAttr "distribution_change" "distribution_change").
Proof. intros ->%exec_gcm_init. vm_compute. reflexivity. Qed.

(** C9.  Whenever evaluation of the initializer ends,
    [EmpiricalDistribution], [BayesianGaussianMixtureDistribution] and
    [ScipyDistribution] denote the attributes of those names of
    [.stochastic_models]; one statement of the file imports exactly these
    three. *)
Theorem stochastic_models_exports (w : World) (st : State) :
  exec_module w gcm_init = Done st ->
  from_ "stochastic_models"
    ["BayesianGaussianMixtureDistribution"; "EmpiricalDistribution";
     "ScipyDistribution"] ∈ gcm_init ∧
  ns st !! "EmpiricalDistribution"
    = Some (VAttr "stochastic_models" "EmpiricalDistribution") ∧
  ns st !! "BayesianGaussianMixtureDistribution"
    = Some (VAttr "stochastic_models" "BayesianGaussianMixtureDistribution") ∧
  ns st !! "ScipyDistribution"
    = Some (VAttr "stochastic_models" "ScipyDistribution").
Proof.
  intros ->%exec_gcm_init. split; [by_evaluation|].
  repeat split; vm_compute; reflexivity.
Qed.

Lemma stochastic_models_exports_witness :
  exec_module full_world gcm_init = Done gcm_namespace ∧
  ns gcm_namespace !! "EmpiricalDistribution"
    = Some (VAttr "stochastic_models" "EmpiricalDistribution").
Proof.
  assert (H : exec_module full_world gcm_init = Done gcm_namespace)
    by reflexivity.
  split; [exact H|].
  exact (proj1 (proj2 (stochastic_models_exports full_world gcm_namespace H))).
Defined.

(** C10.  The file's first import, [from . import ml, util], names none of
    the eight submodules of the specification; whenever evaluation of the
    initializer ends, the submodules [dowhy.gcm.ml] and [dowhy.gcm.util]
    are loaded, and [ml] and [util] are names of the package that denote
    them. *)
Theorem ml_util_submodules (w : World) (st : State) :
  exec_module w gcm_init = Done st ->
  from_package ["ml"; "util"] ∈ gcm_init ∧
  ("ml" ∉ spec_modules) ∧ ("util" ∉ spec_modules) ∧
  qualname "ml" = "dowhy.gcm.ml" ∧ qualname "util" = "dowhy.gcm.util" ∧
  "ml" ∈ loaded st ∧ "util" ∈ loaded st ∧
  ns st !! "ml" = Some (VSubmodule "ml") ∧
  ns st !! "util" = Some (VSubmodule "util").
Proof.
  intros ->%exec_gcm_init.
  split; [by_evaluation|]. split; [by_evaluation|]. split; [by_evaluation|].
  split; [reflexivity|]. split; [reflexivity|].
  split; [by_evaluation|]. split; [by_evaluation|].
  split; vm_compute; reflexivity.
Qed.

Lemma ml_util_submodules_witness :
  exec_module full_world gcm_init = Done gcm_namespace ∧
  ns gcm_namespace !! "ml" = Some (VSubmodule "ml") ∧
  ns gcm_namespace !! "util" = Some (VSubmodule "util").
Proof.
  assert (H : exec_module full_world gcm_init = Done gcm_namespace)
    by reflexivity.
  split; [exact H|].
  pose proof (ml_util_submodules full_world gcm_namespace H)
    as (_ & _ & _ & _ & _ & _ & _ & Ha).
  exact Ha.
Defined.

End InitFacts.

(** ** Facts about the directed graph *)

Module GraphFacts.
Import Graph.

Section Reachability.
Variable g : DirectedGraph.

Lemma elem_of_successors X y :
  y ∈ successors g X ↔ exists x, x ∈ X ∧ edge g x y.
Proof.
  unfold successors, edge. rewrite elem_of_map. split.
  - intros [[a b] [-> [Ha Hab]%elem_of_filter]]. simpl in *. eauto.
  - intros [x [Hx Hxy]]. exists (x, y). split; [done|].
    by apply elem_of_filter.
Qed.

Lemma successors_mono X Y : X ⊆ Y -> successors g X ⊆ successors g Y.
Proof.
  intros HXY y [x [Hx Hxy]]%elem_of_successors.
  apply elem_of_successors. exists x. split; [by apply HXY|done].
Qed.

Lemma reach_incl k X : X ⊆ reach g k X.
Proof.
  revert X. induction k as [|k IH]; intros X; simpl; [done|].
  etrans; [|apply IH]. apply union_subseteq_l.
Qed.

(** Whatever a round adds is at the end of a path from the start set. *)
Lemma reach_sound k X y :
  y ∈ reach g k X -> exists x, x ∈ X ∧ rtc (edge g) x y.
Proof.
  revert X. induction k as [|k IH]; intros X Hy; simpl in *.
  - exists y. split; [done|apply rtc_refl].
  - destruct (IH _ Hy) as [x [[Hx|Hx]%elem_of_union Hxy]]; [by eauto|].
    apply elem_of_successors in Hx as [x0 [Hx0 He]].
    exists x0. split; [done|]. by eapply rtc_l.
Qed.

Lemma reach_closed k X : successors g X ⊆ X -> reach g k X = X.
Proof.
  intros Hc. induction k as [|k IH]; simpl; [done|].
  by replace (X ∪ successors g X) with X by set_solver.
Qed.

Lemma reach_bounded k X B :
  X ⊆ B -> successors g B ⊆ B -> reach g k X ⊆ B.
Proof.
  revert X. induction k as [|k IH]; intros X HX HB; simpl; [done|].
  apply IH; [|done]. apply union_least; [done|].
  etrans; [by apply successors_mono|done].
Qed.

(** A round either changes nothing, now and later, or adds a node. *)
Lemma reach_closed_or_grows k X :
  successors g (reach g k X) ⊆ reach g k X ∨ (size X + k ≤ size (reach g k X))%nat.
Proof.
  revert X. induction k as [|k IH]; intros X; simpl.
  - right. lia.
  - destruct (decide (successors g X ⊆ X)) as [Hc|Hn].
    + left. replace (X ∪ successors g X) with X by set_solver.
      by rewrite reach_closed.
    + destruct (IH (X ∪ successors g X)) as [Hc|Hs]; [by left|right].
      assert (size X < size (X ∪ successors g X))%nat; [|lia].
      apply subset_size. set_solver.
Qed.

Lemma closed_complete X x y :
  successors g X ⊆ X -> x ∈ X -> rtc (edge g) x y -> y ∈ X.
Proof.
  intros Hc Hx Hxy. induction Hxy as [|x x' y He _ IH]; [done|].
  apply IH, Hc, elem_of_successors. eauto.
Qed.

Lemma size_list_to_set_le (l : list string) :
  (size (list_to_set l : gset string) ≤ length l)%nat.
Proof.
  induction l as [|a l IH].
  - by rewrite list_to_set_nil, size_empty.
  - rewrite list_to_set_cons, size_union_alt, size_singleton.
    assert (Hd : list_to_set l ∖ {[a]} ⊆ (list_to_set l : gset string))
      by apply subseteq_difference_l, reflexivity.
    apply subseteq_size in Hd. simpl. lia.
Qed.

Lemma size_targets :
  (size (set_map snd (edges g) : gset string) ≤ size (edges g))%nat.
Proof.
  unfold set_map. etrans; [apply size_list_to_set_le|].
  by rewrite length_fmap.
Qed.

Lemma descendants_closed n :
  successors g (descendants g n) ⊆ descendants g n.
Proof.
  unfold descendants.
  set (B := ({[n]} ∪ set_map snd (edges g) : gset string)).
  assert (HB : successors g B ⊆ B).
  { intros y [x [_ He]]%elem_of_successors. apply elem_of_union_r.
    apply elem_of_map. by exists (x, y). }
  assert (Hin : reach g (size (edges g)) {[n]} ⊆ B).
  { apply reach_bounded; [|done]. subst B. set_solver. }
  destruct (reach_closed_or_grows (size (edges g)) {[n]}) as [Hc|Hs]; [done|].
  rewrite size_singleton in Hs.
  assert (HsB : (size B ≤ 1 + size (edges g))%nat).
  { subst B. rewrite size_union_alt, size_singleton.
    pose proof size_targets as Ht.
    assert (Hd : set_map snd (edges g) ∖ {[n]} ⊆ (set_map snd (edges g) : gset string))
      by apply subseteq_difference_l, reflexivity.
    apply subseteq_size in Hd. lia. }
  assert (Heq : reach g (size (edges g)) {[n]} = B).
  { apply set_subseteq_size_eq; [done|lia]. }
  by rewrite Heq.
Qed.

(** [descendants] decides reachability. *)
Lemma elem_of_descendants n y :
  y ∈ descendants g n ↔ rtc (edge g) n y.
Proof.
  split.
  - intros Hy. apply reach_sound in Hy as [x [Hx Hxy]].
    by apply elem_of_singleton in Hx as ->.
  - intros Hny. apply (closed_complete _ n); [apply descendants_closed| |done].
    by apply reach_incl, elem_of_singleton.
Qed.

End Reachability.

Lemma edge_with_edge g p c a b :
  edge (with_edge g p c) a b ↔ edge g a b ∨ (a = p ∧ b = c).
Proof.
  unfold edge, with_edge; simpl.
  rewrite elem_of_union, elem_of_singleton. naive_solver.
Qed.

(** A path of the graph with the edge [(p, c)] put in is a path of the
    graph itself, or it goes through the new edge: then the graph leads
    from its start to [p] and from [c] to its end. *)
Lemma tc_with_edge g p c a b :
  tc (edge (with_edge g p c)) a b ->
  tc (edge g) a b ∨ (rtc (edge g) a p ∧ rtc (edge g) c b).
Proof.
  induction 1 as [a b He|a m b He _ IH].
  - apply edge_with_edge in He as [He|[-> ->]]; [left; by apply tc_once|].
    right. split; apply rtc_refl.
  - apply edge_with_edge in He as [He|[-> ->]].
    + destruct IH as [IH|[IH1 IH2]].
      * left. by eapply tc_l.
      * right. split; [by eapply rtc_l|done].
    + right. split; [apply rtc_refl|].
      destruct IH as [IH|[_ IH2]]; [by apply tc_rtc|done].
Qed.

Lemma with_edge_acyclic g p c :
  acyclic g -> ¬ rtc (edge g) c p -> acyclic (with_edge g p c).
Proof.
  intros Hg Hcp x Hx.
  apply tc_with_edge in Hx as [Hx|[Hxp Hcx]]; [by apply (Hg x)|].
  apply Hcp. by etrans.
Qed.

Lemma with_edge_cyclic g p c :
  rtc (edge g) c p -> ¬ acyclic (with_edge g p c).
Proof.
  intros Hcp Hacyc. apply (Hacyc p).
  eapply tc_rtc_r; [apply tc_once, edge_with_edge; by right|].
  eapply rtc_subrel; [|done].
  intros a b Hab. apply edge_with_edge. by left.
Qed.

Lemma acyclic_empty : acyclic empty_graph.
Proof.
  intros x Hx.
  destruct Hx as [a b He|a b c He _]; unfold edge, empty_graph in He;
    simpl in He; by apply not_elem_of_empty in He.
Qed.

Lemma acyclic_add_node g id : acyclic g -> acyclic (add_node id g).
Proof. done. Qed.

(** [add_edge] has two outcomes, decided by reachability. *)
Lemma add_edge_cases g p c :
  (rtc (edge g) c p ∧ add_edge g p c = Err CycleError) ∨
  (¬ rtc (edge g) c p ∧ add_edge g p c = Ok (with_edge g p c)).
Proof.
  unfold add_edge. case_bool_decide as Hd; rewrite elem_of_descendants in Hd.
  - by left.
  - by right.
Qed.

(** It raises only for an edge that closes a cycle. *)
Lemma add_edge_CycleError_only_for_cycles g p c e :
  add_edge g p c = Err e -> e = CycleError ∧ ¬ acyclic (with_edge g p c).
Proof.
  destruct (add_edge_cases g p c) as [[Hr ->]|[_ ->]]; [|done].
  intros [= <-]. split; [done|]. by apply with_edge_cyclic.
Qed.

(** C7.  On an acyclic graph, [add_edge parent child] raises [CycleError]
    whenever the graph with that edge put in has a cycle; and when it
    succeeds, the graph it returns is the old one with that edge, and is
    acyclic. *)
Theorem add_edge_keeps_acyclic (g : DirectedGraph) (parent child : string) :
  acyclic g ->
  (¬ acyclic (with_edge g parent child) ->
     add_edge g parent child = Err CycleError) ∧
  (forall g', add_edge g parent child = Ok g' ->
     g' = with_edge g parent child ∧ acyclic g').
Proof.
  intros Hg.
  destruct (add_edge_cases g parent child) as [[Hr ->]|[Hr ->]].
  - split; [done|]. intros g' [=].
  - split.
    + intros Hc. destruct Hc. by apply with_edge_acyclic.
    + intros g' [= <-]. split; [done|]. by apply with_edge_acyclic.
Qed.

Lemma add_edge_keeps_acyclic_witness :
  acyclic chain_graph ∧
  add_edge chain_graph "C" "A" = Err CycleError ∧
  acyclic (with_edge chain_graph "A" "C").
Proof.
  assert (H0 : acyclic (add_node "A" empty_graph))
    by apply acyclic_add_node, acyclic_empty.
  assert (H1 : acyclic (with_edge (add_node "A" empty_graph) "A" "B")).
  { apply (proj2 (add_edge_keeps_acyclic _ "A" "B" H0)). vm_compute. reflexivity. }
  assert (H2 : acyclic chain_graph).
  { apply (proj2 (add_edge_keeps_acyclic _ "B" "C" H1)). vm_compute. reflexivity. }
  split; [exact H2|]. split.
  - apply (proj1 (add_edge_keeps_acyclic chain_graph "C" "A" H2)).
    intros Hc. apply (Hc "A").
    apply (tc_l _ _ "B"); [unfold edge; by_evaluation|].
    apply (tc_l _ _ "C"); [unfold edge; by_evaluation|].
    apply tc_once. unfold edge. by_evaluation.
  - apply (proj2 (add_edge_keeps_acyclic chain_graph "A" "C" H2)).
    vm_compute. reflexivity.
Defined.

End GraphFacts.

(** ** Facts about the sampler *)

Module ScmFacts.
Import Graph Scm.

Section Sampler.
Context {V Gen : Type}.
Variable topological_order : DirectedGraph -> list string.

Abbreviation Mechanism := (Mechanism V Gen).
Abbreviation CausalModel := (CausalModel V Gen).
Abbreviation Override := (Override V Gen).

(** *** No randomness where the noise is replayed *)

Lemma ret_no_randomness {A} (a : A) : uses_no_randomness (Gen:=Gen) (ret a).
Proof. by exists (Ok a). Qed.

Lemma raise_no_randomness {A} e : uses_no_randomness (Gen:=Gen) (A:=A) (raise e).
Proof. by exists (Err e). Qed.

Lemma bind_no_randomness {A B} (c : M Gen A) (k : A -> M Gen B) :
  uses_no_randomness c -> (forall a, uses_no_randomness (k a)) ->
  uses_no_randomness (bind c k).
Proof.
  intros [[a|e] Hc] Hk.
  - destruct (Hk a) as [r Hr]. exists r. intros g.
    unfold bind. by rewrite Hc.
  - exists (Err e). intros g. unfold bind. by rewrite Hc.
Qed.

Lemma run_mechanism_replayed u pa (mech : Mechanism) :
  uses_no_randomness (run_mechanism (Some u) pa mech).
Proof.
  destruct mech; simpl.
  - apply ret_no_randomness.
  - apply bind_no_randomness; [apply ret_no_randomness|].
    intros; apply ret_no_randomness.
  - apply ret_no_randomness.
Qed.

Lemma simulate_node_replayed (m : CausalModel) iv row n u :
  uses_no_randomness (simulate_node m iv row n (Some u)).
Proof.
  unfold simulate_node. apply bind_no_randomness.
  - destruct (iv !! n) as [[v|mech]|].
    + apply ret_no_randomness.
    + apply run_mechanism_replayed.
    + destruct (mechanisms m !! n).
      * apply run_mechanism_replayed.
      * apply raise_no_randomness.
  - intros; apply ret_no_randomness.
Qed.

Lemma simulate_replayed (m : CausalModel) iv plan row :
  Forall (fun e => is_Some e.2) plan ->
  uses_no_randomness (simulate m iv plan row).
Proof.
  intros Hplan. revert row.
  induction Hplan as [|[n r] plan [u Hu] _ IH]; intros row; simpl in *.
  - apply ret_no_randomness.
  - subst r. apply bind_no_randomness; [apply simulate_node_replayed|done].
Qed.

(** Abduction recovers a noise for every node of the order. *)
Lemma abduction_plan (m : CausalModel) factual order plan :
  abduction m factual order = Ok plan ->
  plan.*1 = order ∧ Forall (fun e => is_Some e.2) plan.
Proof.
  revert plan. induction order as [|n order IH]; intros plan; simpl.
  - intros [= <-]. by split.
  - destruct (abduct_node m factual n) as [u|e]; [|done].
    destruct (abduction m factual order) as [plan'|e]; [|done].
    intros [= <-]. destruct (IH plan' eq_refl) as [<- Hall].
    split; [done|]. constructor; [by eexists|done].
Qed.

(** Whatever the model, the intervention and the observed row,
    [counterfactual_samples] neither reads nor advances the generator: its
    result is the same from every generator state, and it hands the state
    back unchanged. *)
Lemma counterfactual_uses_no_randomness (m : CausalModel)
    (iv : gmap string Override) (factual : string -> V) :
  uses_no_randomness (counterfactual_samples topological_order m iv factual).
Proof.
  unfold counterfactual_samples.
  destruct (kind m); [apply raise_no_randomness|].
  destruct (abduction m factual (topological_order (graph m))) as [plan|e] eqn:E;
    [|apply raise_no_randomness].
  apply simulate_replayed. by apply abduction_plan in E as [_ ?].
Qed.

(** *** The round trip through abduction *)

Lemma parent_values_ext (ps : gset string) (r1 r2 : string -> option V) :
  (forall p, p ∈ ps -> r1 p = r2 p) ->
  parent_values ps r1 = parent_values ps r2.
Proof.
  intros Hr. unfold parent_values. f_equal.
  apply list_omap_ext, Forall_Forall2_diag, Forall_forall.
  intros p Hp%elem_of_elements. by rewrite (Hr p Hp).
Qed.

(** A node of an invertible model, its parents already holding their
    observed values: the mechanism returns the observed value when it is
    run on the noise abduction recovers. *)
Lemma simulate_node_roundtrip (m : CausalModel) factual row n u g :
  map_Forall (fun _ mech => invertible mech) (mechanisms m) ->
  (forall p, p ∈ parents_of (graph m) n -> row !! p = Some (factual p)) ->
  abduct_node m factual n = Ok u ->
  simulate_node m ∅ row n (Some u) g = Ok (<[n := factual n]> row, g).
Proof.
  intros Hinv Hpa Hu. unfold simulate_node, abduct_node in *.
  rewrite lookup_empty.
  destruct (mechanisms m !! n) as [mech|] eqn:Hm; [|done].
  specialize (Hinv n mech Hm).
  destruct mech as [d|f [inv|] d|pr]; simpl in *; try done.
  - by injection Hu as <-.
  - injection Hu as <-. unfold bind, ret.
    rewrite (parent_values_ext _ _ (fun p => Some (factual p)) Hpa).
    by rewrite Hinv.
Qed.

Lemma abduction_succeeds (m : CausalModel) factual order :
  map_Forall (fun _ mech => invertible mech) (mechanisms m) ->
  (forall n, n ∈ order -> is_Some (mechanisms m !! n)) ->
  exists plan, abduction m factual order = Ok plan.
Proof.
  intros Hinv. induction order as [|n order IH]; intros Hfit; simpl.
  - by eexists.
  - assert (exists u, abduct_node m factual n = Ok u) as [u ->].
    { destruct (Hfit n) as [mech Hm]; [apply list_elem_of_here|].
      unfold abduct_node. rewrite Hm. specialize (Hinv n mech Hm).
      destruct mech as [d|f [inv|] d|pr]; simpl in *; by eauto. }
    destruct IH as [plan ->]; [|by eexists].
    intros q Hq. apply Hfit. by apply list_elem_of_further.
Qed.

(** Replaying the recovered noise over an order in which parents come
    first, from a row that holds observed values only: nothing raises, the
    generator is left alone, and the row still holds observed values only,
    now at every node of the order too. *)
Lemma simulate_roundtrip (m : CausalModel) factual order :
  map_Forall (fun _ mech => invertible mech) (mechanisms m) ->
  forall seen row plan g,
    parents_first (graph m) seen order ->
    (forall p, p ∈ seen -> is_Some (row !! p)) ->
    (forall p v, row !! p = Some v -> v = factual p) ->
    abduction m factual order = Ok plan ->
    exists row',
      simulate m ∅ plan row g = Ok (row', g) ∧
      (forall p, p ∈ seen ∨ p ∈ order -> is_Some (row' !! p)) ∧
      (forall p, is_Some (row' !! p) -> is_Some (row !! p) ∨ p ∈ order) ∧
      (forall p v, row' !! p = Some v -> v = factual p).
Proof.
  intros Hinv. induction order as [|n order IH];
    intros seen row plan g Hpf Hseen Hrow Hplan; simpl in *.
  - injection Hplan as <-. exists row. simpl. split; [done|].
    split; [|split; [by left|done]].
    intros p [Hp|Hp]; [by apply Hseen|by apply elem_of_nil in Hp].
  - destruct Hpf as [Hps Hpf].
    destruct (abduct_node m factual n) as [u|e] eqn:Hu; [|done].
    destruct (abduction m factual order) as [plan'|e] eqn:Hp'; [|done].
    injection Hplan as <-. simpl. unfold bind at 1.
    rewrite (simulate_node_roundtrip m factual row n u g Hinv); [|..|done].
    2:{ intros p Hp. destruct (Hseen p (Hps p Hp)) as [v Hv].
        by rewrite Hv, (Hrow p v Hv). }
    destruct (IH ({[n]} ∪ seen) (<[n := factual n]> row) plan' g Hpf)
      as (row' & Hsim & Hdom & Hdom' & Hval); [| |done|].
    + intros p [->%elem_of_singleton|Hp]%elem_of_union.
      * rewrite lookup_insert_eq. by eexists.
      * destruct (decide (n = p)) as [->|Hne].
        -- rewrite lookup_insert_eq. by eexists.
        -- rewrite lookup_insert_ne by done. by apply Hseen.
    + intros p v. destruct (decide (n = p)) as [->|Hne].
      * rewrite lookup_insert_eq. by intros [= <-].
      * rewrite lookup_insert_ne by done. apply Hrow.
    + exists row'. split; [done|]. split; [|split; [|done]].
      * intros p [Hp|[->|Hp]%elem_of_cons]; apply Hdom.
        -- left. by apply elem_of_union_r.
        -- left. by apply elem_of_union_l, elem_of_singleton.
        -- by right.
      * intros p Hp. destruct (Hdom' p Hp) as [Hin|Hin].
        -- destruct (decide (n = p)) as [->|Hne].
           ++ right. apply list_elem_of_here.
           ++ rewrite lookup_insert_ne in Hin by done. by left.
        -- right. by apply list_elem_of_further.
Qed.

(** C6.  For a fitted invertible model whose nodes [topological_order]
    lists parents first, and any row that gives a value to every node:
    [counterfactual_samples] with the empty intervention returns, leaves
    the generator alone, and the row it returns holds, at every node of the
    graph and at no other name, the value the given row has there. *)
Theorem counterfactual_roundtrip (m : CausalModel) (factual : string -> V)
    (g : Gen) :
  fitted_invertible m ->
  topological (graph m) (topological_order (graph m)) ->
  exists row,
    counterfactual_samples topological_order m ∅ factual g = Ok (row, g) ∧
    (forall n, n ∈ nodes (graph m) -> row !! n = Some (factual n)) ∧
    (forall n, is_Some (row !! n) -> n ∈ nodes (graph m)).
Proof.
  intros (Hkind & Hfit & Hinv) [Hpf Hnodes].
  unfold counterfactual_samples. rewrite Hkind.
  destruct (abduction_succeeds m factual (topological_order (graph m)) Hinv)
    as [plan Hplan].
  { intros n Hn. by apply Hfit, Hnodes. }
  rewrite Hplan.
  destruct (simulate_roundtrip m factual _ Hinv ∅ ∅ plan g Hpf)
    as (row & Hsim & Hdom & Hdom' & Hval); [| |done|].
  { intros p Hp. by apply not_elem_of_empty in Hp. }
  { intros p v. by rewrite lookup_empty. }
  exists row. split; [done|]. split.
  - intros n Hn. destruct (Hdom n) as [v Hv]; [right; by apply Hnodes|].
    by rewrite Hv, (Hval n v Hv).
  - intros n Hn. destruct (Hdom' n Hn) as [Hin|Hin].
    + rewrite lookup_empty in Hin. by destruct Hin.
    + by apply Hnodes.
Qed.

End Sampler.

(** *** The chain A -> B -> C *)

Lemma chain_fitted_invertible : fitted_invertible chain_model.
Proof.
  split; [done|]. split.
  - intros n Hn.
    assert (Hn' : n ∈ ({["A"; "B"; "C"]} : gset string)).
    { replace ({["A"; "B"; "C"]} : gset string) with (nodes (graph chain_model));
        [done|]. vm_compute. reflexivity. }
    apply elem_of_union in Hn' as [[->%elem_of_singleton| ->%elem_of_singleton]%elem_of_union
                                   | ->%elem_of_singleton];
      vm_compute; by eexists.
  - unfold chain_model, chain_mechanisms; simpl.
    apply map_Forall_insert_2; [done|].
    apply map_Forall_insert_2; [simpl; intros; lia|].
    apply map_Forall_insert_2; [simpl; intros; lia|].
    apply map_Forall_empty.
Qed.

Lemma chain_topological :
  topological (graph chain_model) (chain_order (graph chain_model)).
Proof.
  split.
  - simpl. split; [by_evaluation|]. split; [by_evaluation|].
    split; [by_evaluation|done].
  - intros n. unfold chain_order.
    replace (nodes (graph chain_model)) with ({["A"; "B"; "C"]} : gset string)
      by (vm_compute; reflexivity).
    rewrite !elem_of_cons, elem_of_nil, !elem_of_union, !elem_of_singleton.
    naive_solver.
Qed.

Lemma counterfactual_roundtrip_witness :
  fitted_invertible chain_model ∧
  topological (graph chain_model) (chain_order (graph chain_model)) ∧
  exists row,
    counterfactual_samples chain_order chain_model ∅ chain_row 0 = Ok (row, 0) ∧
    (forall n, n ∈ nodes (graph chain_model) -> row !! n = Some (chain_row n)) ∧
    (forall n, is_Some (row !! n) -> n ∈ nodes (graph chain_model)).
Proof.
  split; [exact chain_fitted_invertible|]. split; [exact chain_topological|].
  exact (counterfactual_roundtrip chain_order chain_model chain_row 0
           chain_fitted_invertible chain_topological).
Defined.

(** The round trip, evaluated: the observed row A = 1, B = 3, C = 10 comes
    back. *)
Example chain_counterfactual_empty :
  counterfactual_samples chain_order chain_model ∅ chain_row 7
  = Ok (list_to_map [("A", 1); ("B", 3); ("C", 10)]%Z, 7).
Proof. vm_compute. reflexivity. Qed.

(** The same row under do(A = 5): the recovered noises 2 and 4 are
    replayed, B = 5 + 2 and C = 7 * 2 + 4. *)
Example chain_counterfactual_do_A :
  counterfactual_samples chain_order chain_model {["A" := FixValue 5%Z]} chain_row 7
  = Ok (list_to_map [("A", 5); ("B", 7); ("C", 18)]%Z, 7).
Proof. vm_compute. reflexivity. Qed.

(** Two samples from the counter started at 0: the generator advances, and
    the second sample differs from the first. *)
Example chain_draw_samples :
  draw_samples chain_order chain_model 2 0
  = Ok ([ list_to_map [("A", 0); ("B", 1); ("C", 4)];
          list_to_map [("A", 3); ("B", 7); ("C", 19)] ]%Z, 6).
Proof. vm_compute. reflexivity. Qed.

(** A model that is not invertible has no counterfactuals. *)
Example chain_probabilistic_counterfactual :
  counterfactual_samples chain_order
    {| kind := ProbabilisticCausalModel; graph := chain_graph;
       mechanisms := chain_mechanisms |} ∅ chain_row 0
  = Err NonInvertibleMechanismError.
Proof. reflexivity. Qed.

End ScmFacts.

(** ** Further facts about the initializer *)

Module InitMore.
Import Init InitReading InitFacts.

(** *** How evaluation composes *)

Lemma exec_app w l1 l2 st :
  exec w (l1 ++ l2) st
  = match exec w l1 st with Done st1 => exec w l2 st1 | o => o end.
Proof.
  revert st. induction l1 as [|s l1 IH]; intros st; simpl; [done|].
  by destruct (exec_stmt w s st).
Qed.

Lemma exec_aliases_app f l1 l2 st :
  exec_aliases f (l1 ++ l2) st
  = match exec_aliases f l1 st with
    | Done st1 => exec_aliases f l2 st1
    | o => o
    end.
Proof.
  revert st. induction l1 as [|a l1 IH]; intros st; simpl; [done|].
  by destruct (f a st).
Qed.

Lemma package_imports_app l1 l2 :
  package_imports (l1 ++ l2) = (package_imports l1 ++ package_imports l2)%list.
Proof.
  induction l1 as [|[d|[m|] xs l|xs|x|x|x|] l1 IH]; simpl; try done.
  by rewrite IH, (assoc_L (++)%list).
Qed.

Lemma from_modules_app l1 l2 :
  from_modules (l1 ++ l2) = (from_modules l1 ++ from_modules l2)%list.
Proof.
  induction l1 as [|[d|[m|] xs l|xs|x|x|x|] l1 IH]; simpl; try done.
  by rewrite IH.
Qed.

Lemma from_imports_app l1 l2 :
  from_imports (l1 ++ l2) = (from_imports l1 ++ from_imports l2)%list.
Proof.
  induction l1 as [|[d|[m|] xs l|xs|x|x|x|] l1 IH]; simpl; try done.
  by rewrite IH, (assoc_L (++)%list).
Qed.

Lemma forallb_true_Forall {A} (f : A -> bool) (l : list A) :
  forallb f l = true ↔ Forall (fun x => f x = true) l.
Proof.
  induction l as [|x l IH]; simpl.
  - split; [by constructor|done].
  - by rewrite andb_true_iff, Forall_cons, IH.
Qed.

(** The two ways of saying that the world has what the statements name. *)
Lemma provided_world_provides w body :
  forallb (provided_stmt w) body = true ↔ world_provides w body.
Proof.
  unfold world_provides. induction body as [|s body IH]; simpl.
  - split; [by repeat constructor|done].
  - rewrite andb_true_iff, IH. clear IH.
    destruct s as [d|[m|] xs l|xs|x|x|x|]; simpl; try tauto.
    + rewrite andb_true_iff, !Forall_app, Forall_cons, Forall_fmap.
      rewrite forallb_true_Forall. unfold compose; simpl. tauto.
    + rewrite <-(assoc_L (++)%list), !Forall_app, Forall_fmap.
      rewrite forallb_true_Forall. unfold compose; simpl. tauto.
Qed.

(** *** What the statements do, read backwards from a success *)

Lemma exec_aliases_submodule_inv w m xs st st' :
  exec_aliases (import_from_submodule w m) xs st = Done st' ->
  forallb (fun a => has_attr w m (name a)) xs = true ∧
  ns st' = foldl (fun n a => <[bound_name a := VAttr m (name a)]> n) (ns st) xs ∧
  loaded st' = loaded st.
Proof.
  revert st. induction xs as [|a xs IH]; intros st; simpl.
  - by intros [= <-].
  - unfold import_from_submodule at 1.
    destruct (negb (supported_alias a)); [done|].
    destruct (has_attr w m (name a)); [|done].
    intros H. by destruct (IH _ H) as (-> & -> & ->).
Qed.

Lemma exec_from_inv w m xs st st' :
  exec_stmt w (ImportFrom (Some m) xs 1) st = Done st' ->
  (m ∈ loaded st ∨ is_submodule w m = true) ∧
  forallb (fun a => has_attr w m (name a)) xs = true ∧
  ns st' = foldl (fun n a => <[bound_name a := VAttr m (name a)]> n)
             (if decide (m ∈ loaded st) then ns st
              else <[m := VSubmodule m]> (ns st)) xs ∧
  loaded st' = {[m]} ∪ loaded st.
Proof.
  simpl. destruct (has_dot m); [done|]. unfold import_submodule.
  destruct (decide (m ∈ loaded st)) as [Hl|Hl].
  - intros (-> & -> & ->)%exec_aliases_submodule_inv.
    split; [by left|]. split; [done|]. split; [done|]. set_solver.
  - destruct (is_submodule w m); [|done].
    intros (-> & -> & ->)%exec_aliases_submodule_inv.
    split; [by right|]. done.
Qed.

Lemma exec_from_needs w m xs st st' :
  exec_stmt w (ImportFrom (Some m) xs 1) st = Done st' ->
  m ∉ loaded st ->
  provided_stmt w (ImportFrom (Some m) xs 1) = true ∧
  loaded st' = {[m]} ∪ loaded st.
Proof.
  intros ([Hl|Hm] & Ha & _ & Hl')%exec_from_inv Hn; [done|].
  simpl. by rewrite Hm, Ha.
Qed.

Lemma import_from_package_inv w a st st' :
  import_from_package w a st = Done st' ->
  (exists v, ns st !! name a = Some v ∧ st' = bind (bound_name a) v st) ∨
  (ns st !! name a = None ∧ name a ∈ loaded st ∧
   st' = bind (bound_name a) (VSubmodule (name a)) st) ∨
  (ns st !! name a = None ∧ (name a ∉ loaded st) ∧
   is_submodule w (name a) = true ∧
   st' = bind (bound_name a) (VSubmodule (name a)) (load (name a) st)).
Proof.
  unfold import_from_package, import_submodule.
  destruct (negb (supported_alias a)); [done|].
  destruct (ns st !! name a) as [v|]; [intros [= <-]; left; by eexists|].
  destruct (decide (name a ∈ loaded st)); [intros [= <-]; right; by left|].
  destruct (is_submodule w (name a)); [|done].
  intros [= <-]. right; by right.
Qed.

(** The first import of the file, run at the start. *)
Lemma exec_ml_util_needs w st' :
  exec_stmt w (from_package ["ml"; "util"]) (initial gcm_init) = Done st' ->
  provided_stmt w (from_package ["ml"; "util"]) = true ∧
  loaded st' = {["ml"; "util"]}.
Proof.
  simpl.
  destruct (import_from_package w (plain "ml") (initial gcm_init))
    as [st1| |] eqn:E1; try done.
  apply import_from_package_inv in E1 as [(v & Hv & _)|[(_ & Hl & _)|(_ & _ & Hml & ->)]].
  { vm_compute in Hv. discriminate. }
  { by apply not_elem_of_empty in Hl. }
  destruct (import_from_package w (plain "util") _) as [st2| |] eqn:E2; try done.
  apply import_from_package_inv in E2 as [(v & Hv & _)|[(_ & Hl & _)|(_ & _ & Hutil & ->)]].
  { vm_compute in Hv. discriminate. }
  { simpl in Hl. set_solver. }
  intros [= <-]. simpl in *. rewrite Hml, Hutil. split; [done|]. set_solver.
Qed.

Ltac import_step H :=
  lazymatch type of H with
  | exec ?w (?s :: ?rest) ?st0 = Done ?st =>
      let st1 := fresh "st" in
      let E := fresh "E" in
      change (match exec_stmt w s st0 with
              | Done st' => exec w rest st'
              | o => o
              end = Done st) in H;
      destruct (exec_stmt w s st0) as [st1| |] eqn:E; [|discriminate H..];
      first
        [ apply exec_ml_util_needs in E as [? ?]
        | apply exec_from_needs in E as [? ?];
          [|repeat match goal with Hl : loaded _ = _ |- _ => rewrite Hl; clear Hl end;
            set_solver] ]
  end.

(** Evaluation ends only in a world that has every submodule and every
    attribute the file names. *)
Lemma gcm_init_needs w st :
  exec_module w gcm_init = Done st -> forallb (provided_stmt w) gcm_init = true.
Proof.
  unfold exec_module. intros H.
  change (exec w (tail gcm_init) (initial gcm_init) = Done st) in H.
  unfold gcm_init, tail in H.
  do 9 import_step H.
  unfold gcm_init, from_. cbn [forallb]. unfold from_ in *.
  repeat match goal with Hp : provided_stmt _ _ = true |- _ => rewrite Hp; clear Hp end.
  done.
Qed.

(** X1.  No import of the file is optional: in any world, evaluation of
    the initializer ends only if the world has the ten submodules the file
    names and every one of the twenty-five attributes its import lists
    name. *)
Theorem import_needs_every_name (w : World) (st : State) :
  exec_module w gcm_init = Done st -> world_provides w gcm_init.
Proof.
  intros H. by apply provided_world_provides, (gcm_init_needs w st).
Qed.

(** *** Where evaluation raises *)

Lemma exec_aliases_package_loaded w xs st st' :
  exec_aliases (import_from_package w) xs st = Done st' ->
  loaded st' ⊆ loaded st ∪ list_to_set (name <$> xs).
Proof.
  revert st. induction xs as [|a xs IH]; intros st; simpl.
  - intros [= <-]. set_solver.
  - destruct (import_from_package w a st) as [st1| |] eqn:E; try done.
    intros H%IH.
    apply import_from_package_inv in E
      as [(v & _ & ->)|[(_ & _ & ->)|(_ & _ & _ & ->)]]; simpl in *; set_solver.
Qed.

Lemma exec_stmt_loaded w s st st' :
  exec_stmt w s st = Done st' ->
  loaded st' ⊆ loaded st ∪ list_to_set (package_imports [s] ++ from_modules [s]).
Proof.
  destruct s as [d|[m|] xs [|[|l]]|xs|x|x|x|]; try done.
  - intros [= <-]. set_solver.
  - intros (_ & _ & _ & ->)%exec_from_inv. simpl. set_solver.
  - simpl. intros H%exec_aliases_package_loaded. rewrite app_nil_r. set_solver.
  - intros [= <-]. set_solver.
  - intros [= <-]. set_solver.
  - intros [= <-]. set_solver.
Qed.

(** Evaluation loads no submodule but those the statements name. *)
Lemma exec_loaded w body st st' :
  exec w body st = Done st' ->
  loaded st' ⊆ loaded st ∪ list_to_set (package_imports body ++ from_modules body).
Proof.
  revert st. induction body as [|s body IH]; intros st H.
  - injection H as <-. set_solver.
  - cbn [exec] in H.
    destruct (exec_stmt w s st) as [st1| |] eqn:E; try done.
    apply IH in H. apply exec_stmt_loaded in E.
    change (s :: body) with ([s] ++ body)%list.
    rewrite package_imports_app, from_modules_app.
    rewrite !list_to_set_app_L in *. set_solver.
Qed.

(** A statement [from .m import ...] reached with [m] not yet loaded, in a
    world without [m]. *)
Lemma exec_missing_submodule w pre m xs post st :
  forallb supported_stmt pre = true ->
  forallb (provided_stmt w) pre = true ->
  has_dot m = false ->
  m ∉ loaded st ->
  m ∉ (package_imports pre ++ from_modules pre)%list ->
  is_submodule w m = false ->
  exec w (pre ++ ImportFrom (Some m) xs 1 :: post) st
  = Raised (ModuleNotFoundError (qualname m)).
Proof.
  intros Hs Hp Hd Hl Hn Hm. rewrite exec_app.
  destruct (exec_provided w pre st Hs Hp) as [st1 E]. rewrite E.
  apply exec_loaded in E.
  assert (m ∉ loaded st1).
  { intros Hin. apply E in Hin. set_solver. }
  simpl. rewrite Hd. unfold import_submodule.
  by rewrite decide_False, Hm by done.
Qed.

(** A statement [from .m import ..., a, ...] reached in a world in which
    [m] has the attributes listed before [a] but not [a]. *)
Lemma exec_missing_attribute w pre m ys a zs post st :
  forallb supported_stmt pre = true ->
  forallb (provided_stmt w) pre = true ->
  has_dot m = false ->
  forallb supported_alias (ys ++ [a]) = true ->
  is_submodule w m = true ->
  forallb (fun b => has_attr w m (name b)) ys = true ->
  has_attr w m (name a) = false ->
  exec w (pre ++ ImportFrom (Some m) (ys ++ a :: zs) 1 :: post) st
  = Raised (ImportError (qualname m) (name a)).
Proof.
  intros Hs Hp Hd Hsa Hm Hys Ha. rewrite exec_app.
  destruct (exec_provided w pre st Hs Hp) as [st1 ->].
  simpl. rewrite Hd.
  destruct (import_submodule_provided w m st1 Hm) as [st2 ->].
  rewrite forallb_app in Hsa. apply andb_prop in Hsa as [Hsy Hsa].
  simpl in Hsa. rewrite andb_true_r in Hsa.
  rewrite exec_aliases_app.
  destruct (exec_aliases_submodule_provided w m ys st2 Hsy Hys) as [st3 ->].
  simpl. unfold import_from_submodule at 1. by rewrite Hsa, Ha.
Qed.

(** The file's statements are all within the fragment, and name each
    submodule once. *)
Lemma gcm_init_supported : forallb supported_stmt gcm_init = true.
Proof. reflexivity. Qed.

Lemma gcm_init_modules_NoDup :
  NoDup (package_imports gcm_init ++ from_modules gcm_init).
Proof. by_evaluation. Qed.

Lemma gcm_init_split pre m xs post :
  gcm_init = (pre ++ ImportFrom (Some m) xs 1 :: post)%list ->
  forallb supported_stmt pre = true ∧
  has_dot m = false ∧
  forallb supported_alias xs = true ∧
  m ∉ (package_imports pre ++ from_modules pre)%list.
Proof.
  intros Hsplit.
  pose proof gcm_init_supported as Hs.
  pose proof gcm_init_modules_NoDup as Hn.
  rewrite Hsplit in Hs, Hn.
  rewrite forallb_app in Hs. apply andb_prop in Hs as [Hpre Hs].
  simpl in Hs. apply andb_prop in Hs as [Hs _].
  apply andb_prop in Hs as [Hd%negb_true_iff Hxs].
  split; [done|]. split; [done|]. split; [done|].
  rewrite package_imports_app, from_modules_app in Hn. simpl in Hn.
  intros [Hin|Hin]%elem_of_app.
  - apply NoDup_app in Hn as (_ & Hn & _).
    apply (Hn m); [by apply elem_of_app; left|].
    apply elem_of_app; right. apply list_elem_of_here.
  - apply NoDup_app in Hn as (_ & _ & Hn).
    apply NoDup_app in Hn as (_ & Hn & _).
    apply (Hn m Hin), list_elem_of_here.
Qed.

(** X2.  Take any statement [from .m import ...] of the file, and a world
    that has everything the statements before it name but not the
    submodule [m]: evaluation of the initializer raises
    [ModuleNotFoundError] for [dowhy.gcm.m]. *)
Theorem missing_submodule_raises (w : World) pre m xs post :
  gcm_init = (pre ++ ImportFrom (Some m) xs 1 :: post)%list ->
  world_provides w pre ->
  is_submodule w m = false ->
  exec_module w gcm_init = Raised (ModuleNotFoundError (qualname m)).
Proof.
  intros Hsplit Hp%provided_world_provides Hm.
  destruct (gcm_init_split _ _ _ _ Hsplit) as (Hs & Hd & _ & Hn).
  unfold exec_module. rewrite Hsplit at 1.
  by apply exec_missing_submodule.
Qed.

(** X3.  Take any statement [from .m import ..., a, ...] of the file, and a
    world that has everything the statements before it name, the submodule
    [m] and the attributes listed before [a], but not the attribute [a] of
    [m]: evaluation of the initializer raises [ImportError] for that name
    of [dowhy.gcm.m]. *)
Theorem missing_attribute_raises (w : World) pre m ys a zs post :
  gcm_init = (pre ++ ImportFrom (Some m) (ys ++ a :: zs) 1 :: post)%list ->
  world_provides w pre ->
  is_submodule w m = true ->
  Forall (fun b => has_attr w m (name b) = true) ys ->
  has_attr w m (name a) = false ->
  exec_module w gcm_init = Raised (ImportError (qualname m) (name a)).
Proof.
  intros Hsplit Hp%provided_world_provides Hm Hys%forallb_true_Forall Ha.
  destruct (gcm_init_split _ _ _ _ Hsplit) as (Hs & Hd & Hxs & _).
  unfold exec_module. rewrite Hsplit at 1.
  apply exec_missing_attribute; try done.
  rewrite forallb_app in *. simpl in *.
  apply andb_prop in Hxs as [-> Hxs]. by apply andb_prop in Hxs as [-> _].
Qed.

(** *** Import lists as runs of insertions *)

Section Inserts.
Variable m : string.

Let put (n : gmap string value) (a : alias) : gmap string value :=
  <[bound_name a := VAttr m (name a)]> n.

Lemma foldl_put_keeps xs (base : gmap string value) x :
  is_Some (base !! x) -> is_Some (foldl put base xs !! x).
Proof.
  revert base. induction xs as [|a xs IH]; intros base Hx; simpl; [done|].
  apply IH. unfold put. rewrite lookup_insert_is_Some.
  destruct (decide (bound_name a = x)); by eauto.
Qed.

Lemma foldl_put_binds xs (base : gmap string value) x :
  x ∈ bound_name <$> xs -> is_Some (foldl put base xs !! x).
Proof.
  revert base. induction xs as [|a xs IH]; intros base Hx; simpl.
  - by apply elem_of_nil in Hx.
  - apply elem_of_cons in Hx as [->|Hx]; [|by apply IH].
    apply foldl_put_keeps. unfold put. rewrite lookup_insert_eq. by eexists.
Qed.

Lemma foldl_put_frame xs (base : gmap string value) x :
  x ∉ bound_name <$> xs -> foldl put base xs !! x = base !! x.
Proof.
  revert base. induction xs as [|a xs IH]; intros base Hx; simpl; [done|].
  apply not_elem_of_cons in Hx as [Hne Hx].
  rewrite IH by done. unfold put. by rewrite lookup_insert_ne.
Qed.

(** The last occurrence of a name in the list decides its value. *)
Lemma foldl_put_last ys a zs (base : gmap string value) :
  bound_name a ∉ bound_name <$> zs ->
  foldl put base (ys ++ a :: zs) !! bound_name a = Some (VAttr m (name a)).
Proof.
  intros Hz. rewrite foldl_app. simpl.
  rewrite foldl_put_frame by done. unfold put. by rewrite lookup_insert_eq.
Qed.

Lemma foldl_put_settled xs (base : gmap string value) :
  Forall (fun a => settled (bound_name a) (VAttr m (name a))) xs ->
  (forall x v, base !! x = Some v -> settled x v ∨ x ∈ bound_name <$> xs) ->
  map_Forall settled (foldl put base xs).
Proof.
  revert base. induction xs as [|a xs IH]; intros base Hxs Hbase; simpl.
  - intros x v Hx. destruct (Hbase x v Hx) as [?|Hin]; [done|].
    by apply elem_of_nil in Hin.
  - apply Forall_cons in Hxs as [Ha Hxs]. apply IH; [done|].
    intros x v. unfold put. rewrite lookup_insert_Some.
    intros [[<- <-]|[Hne Hx]]; [by left|].
    destruct (Hbase x v Hx) as [?|Hin]; [by left|right].
    by apply elem_of_cons in Hin as [->|Hin].
Qed.

End Inserts.

(** *** States every order of the statements goes through *)

Lemma consistent_initial : consistent (initial gcm_init).
Proof.
  split.
  - intros x v. unfold initial; simpl. rewrite lookup_singleton_Some.
    intros [<- <-]. by left.
  - intros m Hm. by apply not_elem_of_empty in Hm.
Qed.

Lemma consistent_bind x v st :
  settled x v -> consistent st -> consistent (bind x v st).
Proof.
  intros Hxv [Hns Hl]. split; simpl.
  - by apply map_Forall_insert_2.
  - intros m Hm. rewrite lookup_insert_is_Some.
    destruct (decide (x = m)); [by left|right]. split; [done|by apply Hl].
Qed.

Lemma consistent_load m st :
  settled m (VSubmodule m) -> consistent st -> consistent (load m st).
Proof.
  intros Hm [Hns Hl]. split; simpl.
  - by apply map_Forall_insert_2.
  - intros m' [->%elem_of_singleton|Hm']%elem_of_union.
    + rewrite lookup_insert_eq. by eexists.
    + rewrite lookup_insert_is_Some.
      destruct (decide (m = m')); [by left|right]. split; [done|by apply Hl].
Qed.

Lemma consistent_package w xs st st' :
  Forall (fun a => bound_name a = name a ∧
                   settled (name a) (VSubmodule (name a))) xs ->
  consistent st ->
  exec_aliases (import_from_package w) xs st = Done st' ->
  consistent st'.
Proof.
  intros Hxs. revert st. induction Hxs as [|a xs [Hb Ha] _ IH]; intros st Hst; simpl.
  - by intros [= <-].
  - destruct (import_from_package w a st) as [st1| |] eqn:E; try done.
    apply IH.
    apply import_from_package_inv in E
      as [(v & Hv & ->)|[(_ & _ & ->)|(_ & _ & _ & ->)]]; rewrite Hb.
    + apply consistent_bind; [|done]. by apply (proj1 Hst (name a)).
    + by apply consistent_bind.
    + by apply consistent_bind, consistent_load.
Qed.

Lemma consistent_step w s st st' :
  fits s -> consistent st -> exec_stmt w s st = Done st' -> consistent st'.
Proof.
  destruct s as [d|[m|] xs [|[|l]]|xs|x|x|x|]; try done.
  - by intros _ Hst [= <-].
  - intros [Hm Hxs] [Hns Hl] (_ & _ & Hns' & Hl')%exec_from_inv. split.
    + rewrite Hns'. apply foldl_put_settled; [done|].
      intros x v. destruct (decide (m ∈ loaded st)).
      * intros Hx. left. by apply (Hns x).
      * rewrite lookup_insert_Some. intros [[<- <-]|[_ Hx]]; [done|].
        left. by apply (Hns x).
    + intros m'. rewrite Hl', Hns'. intros [->%elem_of_singleton|Hm']%elem_of_union.
      * apply foldl_put_keeps. destruct (decide (m ∈ loaded st)); [by apply Hl|].
        rewrite lookup_insert_eq. by eexists.
      * apply foldl_put_keeps. destruct (decide (m ∈ loaded st)); [by apply Hl|].
        rewrite lookup_insert_is_Some.
        destruct (decide (m = m')); [by left|right]. split; [done|by apply Hl].
  - intros Hxs Hst. simpl. by apply consistent_package.
Qed.

Lemma consistent_exec w body st st' :
  Forall fits body -> consistent st -> exec w body st = Done st' -> consistent st'.
Proof.
  intros Hbody. revert st. induction Hbody as [|s body Hs _ IH]; intros st Hst; simpl.
  - by intros [= <-].
  - destruct (exec_stmt w s st) as [st1| |] eqn:E; try done.
    apply IH. by apply (consistent_step w s st).
Qed.

(** *** What a statement keeps, binds and leaves alone *)

Lemma exec_aliases_package_keeps w xs st st' x :
  exec_aliases (import_from_package w) xs st = Done st' ->
  is_Some (ns st !! x) -> is_Some (ns st' !! x).
Proof.
  revert st. induction xs as [|a xs IH]; intros st; simpl.
  - by intros [= <-].
  - destruct (import_from_package w a st) as [st1| |] eqn:E; try done.
    intros H Hx. apply (IH _ H).
    apply import_from_package_inv in E
      as [(v & _ & ->)|[(_ & _ & ->)|(_ & _ & _ & ->)]]; simpl;
      rewrite ?lookup_insert_is_Some'; by eauto.
Qed.

Lemma exec_stmt_keeps w s st st' x :
  exec_stmt w s st = Done st' ->
  is_Some (ns st !! x) -> is_Some (ns st' !! x).
Proof.
  destruct s as [d|[m|] xs [|[|l]]|xs|y|y|y|]; try done.
  - by intros [= <-].
  - intros (_ & _ & -> & _)%exec_from_inv Hx. apply foldl_put_keeps.
    destruct (decide (m ∈ loaded st)); [done|].
    rewrite lookup_insert_is_Some'. by right.
  - simpl. apply exec_aliases_package_keeps.
  - intros [= <-] Hx. simpl. rewrite lookup_insert_is_Some'. by right.
  - intros [= <-] Hx. simpl. rewrite lookup_insert_is_Some'. by right.
  - intros [= <-] Hx. simpl. rewrite lookup_insert_is_Some'. by right.
Qed.

Lemma exec_keeps w body st st' x :
  exec w body st = Done st' ->
  is_Some (ns st !! x) -> is_Some (ns st' !! x).
Proof.
  revert st. induction body as [|s body IH]; intros st; simpl.
  - by intros [= <-].
  - destruct (exec_stmt w s st) as [st1| |] eqn:E; try done.
    intros H Hx. apply (IH _ H). by apply (exec_stmt_keeps w s st).
Qed.

Lemma exec_aliases_package_binds w xs st st' a :
  Forall (fun a => bound_name a = name a ∧
                   settled (name a) (VSubmodule (name a))) xs ->
  exec_aliases (import_from_package w) xs st = Done st' ->
  a ∈ xs -> is_Some (ns st' !! name a).
Proof.
  intros Hxs. revert st. induction Hxs as [|b xs [Hb _] _ IH]; intros st; simpl.
  - intros _ Ha. by apply elem_of_nil in Ha.
  - destruct (import_from_package w b st) as [st1| |] eqn:E; try done.
    intros H [->|Ha]%elem_of_cons; [|by apply (IH st1)].
    apply (exec_aliases_package_keeps w xs st1 st' _ H).
    apply import_from_package_inv in E
      as [(v & _ & ->)|[(_ & _ & ->)|(_ & _ & _ & ->)]]; simpl;
      rewrite Hb, lookup_insert_eq; by eexists.
Qed.

(** After a statement, every name it may bind is bound. *)
Lemma exec_stmt_binds w s st st' x :
  fits s -> consistent st -> exec_stmt w s st = Done st' ->
  x ∈ touched s -> is_Some (ns st' !! x).
Proof.
  destruct s as [d|[m|] xs [|[|l]]|xs|y|y|y|]; try done.
  - intros _ _ _ Hx. by apply elem_of_nil in Hx.
  - intros _ [_ Hl] (_ & _ & -> & _)%exec_from_inv [->|Hx]%elem_of_cons.
    + apply foldl_put_keeps. destruct (decide (m ∈ loaded st)); [by apply Hl|].
      rewrite lookup_insert_eq. by eexists.
    + by apply foldl_put_binds.
  - simpl. intros Hxs _ H Hx.
    assert (exists a, a ∈ xs ∧ x = name a) as (a & Ha & ->).
    { apply elem_of_app in Hx as [Hx|Hx];
        apply list_elem_of_fmap in Hx as (a & -> & Ha); exists a; split; try done.
      rewrite Forall_forall in Hxs. by destruct (Hxs a Ha). }
    by apply (exec_aliases_package_binds w xs st).
Qed.

Lemma exec_aliases_package_frame w xs st st' x :
  exec_aliases (import_from_package w) xs st = Done st' ->
  x ∉ ((name <$> xs) ++ (bound_name <$> xs))%list ->
  ns st' !! x = ns st !! x.
Proof.
  revert st. induction xs as [|a xs IH]; intros st H Hx; cbn [exec_aliases] in H.
  - by injection H as <-.
  - destruct (import_from_package w a st) as [st1| |] eqn:E; try done.
    assert (x ≠ name a ∧ x ≠ bound_name a ∧
            x ∉ ((name <$> xs) ++ (bound_name <$> xs))%list) as (Hn & Hb & Hx').
    { rewrite !fmap_cons, not_elem_of_app, !not_elem_of_cons in Hx.
      rewrite not_elem_of_app. naive_solver. }
    rewrite (IH _ H Hx').
    apply import_from_package_inv in E
      as [(v & _ & ->)|[(_ & _ & ->)|(_ & _ & _ & ->)]]; simpl;
      by rewrite !lookup_insert_ne.
Qed.

(** A statement leaves alone every name it may not bind. *)
Lemma exec_stmt_frame w s st st' x :
  exec_stmt w s st = Done st' -> x ∉ touched s -> ns st' !! x = ns st !! x.
Proof.
  destruct s as [d|[m|] xs [|[|l]]|xs|y|y|y|]; try done.
  - by intros [= <-].
  - intros (_ & _ & -> & _)%exec_from_inv [Hm Hx]%not_elem_of_cons.
    rewrite foldl_put_frame by done.
    destruct (decide (m ∈ loaded st)); [done|]. by rewrite lookup_insert_ne.
  - simpl. apply exec_aliases_package_frame.
  - intros [= <-] [Hy _]%not_elem_of_cons. simpl. by rewrite lookup_insert_ne.
  - intros [= <-] [Hy _]%not_elem_of_cons. simpl. by rewrite lookup_insert_ne.
  - intros [= <-] [Hy _]%not_elem_of_cons. simpl. by rewrite lookup_insert_ne.
Qed.

Lemma exec_frame w body st st' x :
  exec w body st = Done st' ->
  Forall (fun s => x ∉ touched s) body ->
  ns st' !! x = ns st !! x.
Proof.
  intros H Hbody. revert st H.
  induction Hbody as [|s body Hs _ IH]; intros st; simpl.
  - by intros [= <-].
  - destruct (exec_stmt w s st) as [st1| |] eqn:E; try done.
    intros H. rewrite (IH _ H). by apply (exec_stmt_frame w s).
Qed.

Lemma exec_binds w body st st' s x :
  Forall fits body -> consistent st -> exec w body st = Done st' ->
  s ∈ body -> x ∈ touched s -> is_Some (ns st' !! x).
Proof.
  intros Hbody. revert st. induction Hbody as [|s0 body Hs0 Hbody IH]; intros st Hst; simpl.
  - intros _ Hs. by apply elem_of_nil in Hs.
  - destruct (exec_stmt w s0 st) as [st1| |] eqn:E; try done.
    intros H [->|Hs]%elem_of_cons Hx.
    + apply (exec_keeps w body st1 st' x H).
      by apply (exec_stmt_binds w s0 st).
    + apply (IH st1); try done. by apply (consistent_step w s0 st).
Qed.

(** *** The statements of the file *)

Lemma gcm_init_fits : Forall fits gcm_init.
Proof. by_evaluation. Qed.

Lemma gcm_init_NoDup : NoDup gcm_init.
Proof. by_evaluation. Qed.

(** Every name of [gcm_namespace] is [__doc__] or a name some statement
    binds. *)
Lemma gcm_namespace_touched :
  map_Forall (fun x _ => x = "__doc__" ∨ Exists (fun s => x ∈ touched s) gcm_init)
    (ns gcm_namespace).
Proof. by_evaluation. Qed.

(** Two statements only bind [FunctionalCausalModel]. *)
Lemma FunctionalCausalModel_touched :
  Forall (fun s => s = cms_statement ∨ s = graph_statement ∨
                   "FunctionalCausalModel" ∉ touched s) gcm_init.
Proof. by_evaluation. Qed.

Lemma reordered_Permutation body : reordered body -> body ≡ₚ gcm_init.
Proof. intros (imports & -> & Hp). unfold gcm_init at 1. by rewrite Hp. Qed.

(** In any order of the import statements, evaluation that ends leaves
    every name but [FunctionalCausalModel] as [gcm_namespace] has it. *)
Lemma reordered_namespace w body st x :
  reordered body -> exec_module w body = Done st ->
  x ≠ "FunctionalCausalModel" ->
  ns st !! x = ns gcm_namespace !! x.
Proof.
  intros Hre H Hx.
  pose proof (reordered_Permutation body Hre) as Hp.
  assert (Hfits : Forall fits body) by (rewrite Hp; apply gcm_init_fits).
  assert (Hinit : initial body = initial gcm_init).
  { by destruct Hre as (imports & -> & _). }
  unfold exec_module in H. rewrite Hinit in H.
  destruct (consistent_exec w body _ st Hfits consistent_initial H) as [Hns _].
  assert (Hsome : forall v, ns gcm_namespace !! x = Some v -> is_Some (ns st !! x)).
  { intros v Hv.
    destruct (gcm_namespace_touched x v Hv) as [->|(s & Hs & Hxs)%Exists_exists].
    - apply (exec_keeps w body _ st _ H). vm_compute. by eexists.
    - apply (exec_binds w body _ st s x Hfits consistent_initial H); [|done].
      by rewrite Hp. }
  destruct (ns st !! x) as [v|] eqn:Hst.
  - destruct (Hns x v Hst) as [Hv|[? _]]; [done..].
  - destruct (ns gcm_namespace !! x) as [v|] eqn:Hg; [|done].
    destruct (Hsome v eq_refl) as [? [=]].
Qed.

(** Of the two statements that bind [FunctionalCausalModel], the one that
    comes last decides. *)
Lemma reordered_last_wins w body st l1 s m l2 :
  reordered body -> exec_module w body = Done st ->
  body = (l1 ++ s :: l2)%list ->
  (s = cms_statement ∧ m = "cms") ∨ (s = graph_statement ∧ m = "graph") ->
  cms_statement ∉ l2 -> graph_statement ∉ l2 ->
  ns st !! "FunctionalCausalModel" = Some (VAttr m "FunctionalCausalModel").
Proof.
  intros Hre H Hbody Hs Hc Hg.
  pose proof (reordered_Permutation body Hre) as Hp.
  unfold exec_module in H. rewrite Hbody in H at 1. rewrite exec_app in H.
  destruct (exec w l1 (initial body)) as [sa| |]; try done.
  cbn [exec] in H.
  destruct (exec_stmt w s sa) as [sb| |] eqn:E; try done.
  rewrite (exec_frame w l2 sb st _ H).
  - destruct Hs as [[-> ->]|[-> ->]];
      apply exec_from_inv in E as (_ & _ & -> & _).
    + refine (foldl_put_last "cms" [] (plain "FunctionalCausalModel")
                [plain "InvertibleStructuralCausalModel";
                 plain "ProbabilisticCausalModel"; plain "StructuralCausalModel"]
                _ _).
      by_evaluation.
    + refine (foldl_put_last "graph"
                [plain "ConditionalStochasticModel"; plain "DirectedGraph"]
                (plain "FunctionalCausalModel")
                [plain "StochasticModel"; plain "is_root_node"] _ _).
      by_evaluation.
  - apply Forall_forall. intros s2 Hs2.
    assert (Hin : s2 ∈ gcm_init).
    { rewrite <-Hp, Hbody. apply elem_of_app. right. by apply list_elem_of_further. }
    pose proof FunctionalCausalModel_touched as Ht.
    rewrite Forall_forall in Ht.
    destruct (Ht s2 Hin) as [->|[->|?]]; done.
Qed.

Lemma NoDup_last_two {A} (l1 l2 l3 : list A) a b :
  NoDup (l1 ++ a :: l2 ++ b :: l3) -> (a ∉ l3) ∧ (b ∉ l3).
Proof.
  intros (_ & _ & H)%NoDup_app. apply NoDup_cons in H as [Ha H]. split.
  - intros Hin. apply Ha, elem_of_app. right. by apply list_elem_of_further.
  - apply NoDup_app in H as (_ & _ & H). by apply NoDup_cons in H as [? _].
Qed.

(** X4.  Put the import statements of the file in any order, the
    docstring staying first.  Whenever evaluation ends, every name other
    than [FunctionalCausalModel] is bound, or unbound, exactly as in
    [gcm_namespace]; and [FunctionalCausalModel] denotes the attribute of
    [.graph] if the [.cms] statement comes before the [.graph] statement,
    that of [.cms] if it comes after. *)
Theorem import_order_only_matters_for_FunctionalCausalModel
    (w : World) (body : list stmt) (st : State) :
  reordered body ->
  exec_module w body = Done st ->
  (forall x, x ≠ "FunctionalCausalModel" -> ns st !! x = ns gcm_namespace !! x) ∧
  (forall l1 l2 l3,
     body = (l1 ++ cms_statement :: l2 ++ graph_statement :: l3)%list ->
     ns st !! "FunctionalCausalModel" = Some (VAttr "graph" "FunctionalCausalModel")) ∧
  (forall l1 l2 l3,
     body = (l1 ++ graph_statement :: l2 ++ cms_statement :: l3)%list ->
     ns st !! "FunctionalCausalModel" = Some (VAttr "cms" "FunctionalCausalModel")).
Proof.
  intros Hre H.
  pose proof (reordered_Permutation body Hre) as Hp.
  pose proof gcm_init_NoDup as Hnd. rewrite <-Hp in Hnd.
  split; [intros x; by apply (reordered_namespace w body)|]. split.
  - intros l1 l2 l3 Hbody. rewrite Hbody in Hnd.
    apply NoDup_last_two in Hnd as [Hc Hg].
    apply (reordered_last_wins w body st (l1 ++ cms_statement :: l2)
             graph_statement "graph" l3); try done.
    + by rewrite Hbody, <-(assoc_L (++)%list).
    + by right.
  - intros l1 l2 l3 Hbody. rewrite Hbody in Hnd.
    apply NoDup_last_two in Hnd as [Hg Hc].
    apply (reordered_last_wins w body st (l1 ++ graph_statement :: l2)
             cms_statement "cms" l3); try done.
    + by rewrite Hbody, <-(assoc_L (++)%list).
    + by left.
Qed.

(** X5.  Running the statements of the initializer again in the namespace
    they ended in, with the submodules still loaded (a reload of the
    package), ends too and leaves that namespace and the set of loaded
    submodules as they were. *)
Theorem reimport_changes_nothing (w : World) (st : State) :
  exec_module w gcm_init = Done st -> exec w gcm_init st = Done st.
Proof.
  intros H. pose proof (gcm_init_needs w st H) as Hp.
  apply exec_gcm_init in H as ->.
  destruct (exec_provided w gcm_init gcm_namespace gcm_init_supported Hp) as [st' E].
  rewrite E. f_equal. apply exec_full in E.
  assert (Hf : exec full_world gcm_init gcm_namespace = Done gcm_namespace)
    by reflexivity.
  congruence.
Qed.

Lemma gcm_namespace_submodules :
  Forall (fun m => m ≠ "distribution_change" ->
                   ns gcm_namespace !! m = Some (VSubmodule m))
         (package_imports gcm_init ++ from_modules gcm_init).
Proof. by_evaluation. Qed.

Lemma gcm_namespace_no_distribution_change_submodule :
  map_Forall (fun _ v => v ≠ VSubmodule "distribution_change") (ns gcm_namespace).
Proof. by_evaluation. Qed.

(** X6.  Whenever evaluation of the initializer ends, the submodule
    [distribution_change] is loaded but the name [distribution_change]
    denotes the attribute of that name it exports, and no name of the
    package denotes the submodule; every other submodule the file names is
    bound under its own name. *)
Theorem distribution_change_names_the_attribute (w : World) (st : State) :
  exec_module w gcm_init = Done st ->
  "distribution_change" ∈ loaded st ∧
  ns st !! "distribution_change"
    = Some (VAttr "distribution_change" "distribution_change") ∧
  (forall x, ns st !! x ≠ Some (VSubmodule "distribution_change")) ∧
  Forall (fun m => m ≠ "distribution_change" -> ns st !! m = Some (VSubmodule m))
         (package_imports gcm_init ++ from_modules gcm_init).
Proof.
  intros ->%exec_gcm_init.
  split; [by_evaluation|]. split; [vm_compute; reflexivity|].
  split; [|apply gcm_namespace_submodules].
  intros x Hx. by apply (gcm_namespace_no_distribution_change_submodule x _ Hx).
Qed.

(** *** The theorems at concrete worlds *)

Lemma import_needs_every_name_witness :
  exec_module full_world gcm_init = Done gcm_namespace ∧
  world_provides full_world gcm_init.
Proof.
  assert (H : exec_module full_world gcm_init = Done gcm_namespace)
    by reflexivity.
  split; [exact H|].
  exact (import_needs_every_name full_world gcm_namespace H).
Defined.

Lemma missing_submodule_raises_witness :
  world_provides world_without_fcms (take 4 gcm_init) ∧
  is_submodule world_without_fcms "fcms" = false ∧
  exec_module world_without_fcms gcm_init
  = Raised (ModuleNotFoundError "dowhy.gcm.fcms").
Proof.
  assert (Hp : world_provides world_without_fcms (take 4 gcm_init))
    by by_evaluation.
  split; [exact Hp|]. split; [reflexivity|].
  exact (missing_submodule_raises world_without_fcms (take 4 gcm_init) "fcms"
           (plain <$> ["AdditiveNoiseModel"; "ClassificationModel";
                       "ClassifierFCM"; "PostNonlinearModel"; "PredictionModel"])
           (drop 5 gcm_init) eq_refl Hp eq_refl).
Defined.

Lemma missing_attribute_raises_witness :
  world_provides world_without_StochasticModel (take 6 gcm_init) ∧
  has_attr world_without_StochasticModel "graph" "StochasticModel" = false ∧
  exec_module world_without_StochasticModel gcm_init
  = Raised (ImportError "dowhy.gcm.graph" "StochasticModel").
Proof.
  assert (Hp : world_provides world_without_StochasticModel (take 6 gcm_init))
    by by_evaluation.
  split; [exact Hp|]. split; [reflexivity|].
  refine (missing_attribute_raises world_without_StochasticModel
            (take 6 gcm_init) "graph"
            [plain "ConditionalStochasticModel"; plain "DirectedGraph";
             plain "FunctionalCausalModel"]
            (plain "StochasticModel") [plain "is_root_node"]
            (drop 7 gcm_init) eq_refl Hp eq_refl _ eq_refl).
  by_evaluation.
Defined.

Lemma gcm_init_graph_first_reordered : reordered gcm_init_graph_first.
Proof.
  exists (tail gcm_init_graph_first). split; [reflexivity|].
  apply NoDup_Permutation; [by_evaluation|by_evaluation|].
  intros s. split; intros Hs.
  - assert (Hsub : tail gcm_init_graph_first ⊆ tail gcm_init) by by_evaluation.
    by apply Hsub.
  - assert (Hsub : tail gcm_init ⊆ tail gcm_init_graph_first) by by_evaluation.
    by apply Hsub.
Qed.

Lemma import_order_witness :
  reordered gcm_init_graph_first ∧
  exec_module full_world gcm_init_graph_first = Done namespace_graph_first ∧
  ns namespace_graph_first !! "FunctionalCausalModel"
    = Some (VAttr "cms" "FunctionalCausalModel") ∧
  ns namespace_graph_first !! "DirectedGraph" = ns gcm_namespace !! "DirectedGraph".
Proof.
  assert (H : exec_module full_world gcm_init_graph_first
              = Done namespace_graph_first) by reflexivity.
  split; [exact gcm_init_graph_first_reordered|]. split; [exact H|].
  pose proof (import_order_only_matters_for_FunctionalCausalModel full_world
                gcm_init_graph_first namespace_graph_first
                gcm_init_graph_first_reordered H) as (Hsame & _ & Hcms).
  split.
  - exact (Hcms (take 2 gcm_init_graph_first)
             (take 3 (drop 3 gcm_init_graph_first))
             (drop 7 gcm_init_graph_first) eq_refl).
  - apply Hsame. discriminate.
Defined.

Lemma reimport_changes_nothing_witness :
  exec_module full_world gcm_init = Done gcm_namespace ∧
  exec full_world gcm_init gcm_namespace = Done gcm_namespace.
Proof.
  assert (H : exec_module full_world gcm_init = Done gcm_namespace)
    by reflexivity.
  split; [exact H|].
  exact (reimport_changes_nothing full_world gcm_namespace H).
Defined.

Lemma distribution_change_names_the_attribute_witness :
  exec_module full_world gcm_init = Done gcm_namespace ∧
  ns gcm_namespace !! "distribution_change"
    = Some (VAttr "distribution_change" "distribution_change").
Proof.
  assert (H : exec_module full_world gcm_init = Done gcm_namespace)
    by reflexivity.
  split; [exact H|].
  exact (proj1 (proj2 (distribution_change_names_the_attribute full_world
                         gcm_namespace H))).
Defined.

(** *** [FunctionalCausalModel], bound twice *)





End InitMore.
